(** * Gomoku engine (five-in-a-row): a shallow embedding of [GomokuEngine]
    and the properties of its board state, win detector, evaluator,
    move generator and alpha-beta search. *)

From Stdlib Require Import ZArith Lia Bool.
From stdpp Require Import base list sorting.

Local Open Scope Z_scope.

(** ** Constants of [gomoku_engine.h] *)

Definition BOARD_SIZE : Z := 15.
Definition EMPTY : Z := 0.
Definition PLAYER : Z := 1.
Definition AI : Z := 2.

(** [int] is 32 bits wide; the engine only ever adds window scores, whose
    total is shown below to stay far inside this range, so [int] values are
    modelled as [Z] without wrap-around. *)
Definition INT_MIN : Z := -2147483648.
Definition INT_MAX : Z := 2147483647.

(** [enum Difficulty { EASY = 1, MEDIUM = 3, HARD = 5 }]. *)
Inductive Difficulty := EASY | MEDIUM | HARD.

(** [static_cast<int>(difficulty)]: the ply count handed to the search.  It is
    positive for every enumerator, so the search depth is modelled as a [nat]
    on which the recursion is structural. *)
Definition difficulty_depth (d : Difficulty) : nat :=
  match d with EASY => 1 | MEDIUM => 3 | HARD => 5 end%nat.

(** ** Data model *)

(** [struct Move { int row; int col; int player; }]. *)
Record Move := mkMove { m_row : Z; m_col : Z; m_player : Z }.

(** [std::vector<std::vector<int>>]. *)
Abbreviation Board := (list (list Z)).

(** The private fields of [GomokuEngine]; [moveHistory] is a [std::stack],
    modelled as a list whose head is the top of the stack. *)
Record Engine := mkEngine {
  board : Board;
  gameOver : bool;
  winner : Z;
  difficulty : Difficulty;
  moveHistory : list Move
}.

Definition with_board (st : Engine) (b : Board) : Engine :=
  mkEngine b (gameOver st) (winner st) (difficulty st) (moveHistory st).

(** [board[r][c]] as an rvalue.  The engine guards every access with a range
    check or a loop bound; outside the grid the model reads [EMPTY]. *)
Definition cell (b : Board) (r c : Z) : Z :=
  if (0 <=? r) && (0 <=? c)
  then default EMPTY (b !! Z.to_nat r ≫= λ line, line !! Z.to_nat c)
  else EMPTY.

(** [board[r][c] = v].  Outside the grid the model leaves the board alone. *)
Definition setCell (b : Board) (r c v : Z) : Board :=
  if (0 <=? r) && (0 <=? c)
  then alter (λ line, <[Z.to_nat c := v]> line) (Z.to_nat r) b
  else b.

(** The shape every board of the engine has: [BOARD_SIZE] rows of
    [BOARD_SIZE] cells. *)
Definition wf_board (b : Board) : Prop :=
  length b = Z.to_nat BOARD_SIZE ∧
  Forall (λ line : list Z, length line = Z.to_nat BOARD_SIZE) b.

Definition emptyBoard : Board :=
  replicate (Z.to_nat BOARD_SIZE) (replicate (Z.to_nat BOARD_SIZE) EMPTY).

(** ** Board state operations *)

Definition isValidPosition (row col : Z) : bool :=
  (0 <=? row) && (row <? BOARD_SIZE) && (0 <=? col) && (col <? BOARD_SIZE).

(** [resetGame]: the difficulty is not touched. *)
Definition resetGame (st : Engine) : Engine :=
  mkEngine emptyBoard false EMPTY (difficulty st) [].

(** The constructor: [resetGame()] and then [difficulty = MEDIUM]. *)
Definition newEngine : Engine :=
  mkEngine emptyBoard false EMPTY MEDIUM [].

Definition setDifficulty (level : Difficulty) (st : Engine) : Engine :=
  mkEngine (board st) (gameOver st) (winner st) level (moveHistory st).

Definition canUndo (st : Engine) : bool :=
  match moveHistory st with [] => false | _ => true end.

(** The body of the [for (int i = 0; i < 2; ++i)] loop of [undoMove], with
    its [break] on an empty stack; [n] is the number of iterations left. *)
Fixpoint undoLoop (n : nat) (b : Board) (h : list Move) : Board * list Move :=
  match n with
  | O => (b, h)
  | S n' =>
      match h with
      | [] => (b, h)
      | lastMove :: h' =>
          undoLoop n' (setCell b (m_row lastMove) (m_col lastMove) EMPTY) h'
      end
  end.

Definition undoMove (st : Engine) : bool * Engine :=
  match moveHistory st with
  | [] => (false, st)
  | _ =>
      let '(b, h) := undoLoop 2 (board st) (moveHistory st) in
      if gameOver st
      then (true, mkEngine b false EMPTY (difficulty st) h)
      else (true, mkEngine b (gameOver st) (winner st) (difficulty st) h)
  end.

(** ** Win detector *)

(** One scan of [checkWin]: [Some true] is a cell equal to [player],
    [Some false] any other cell of the grid, and [None] an index the
    diagonal loops skip because it is off the grid (the counter is kept). *)
Fixpoint scanRun (count : Z) (l : list (option bool)) : bool :=
  match l with
  | [] => false
  | None :: l' => scanRun count l'
  | Some true :: l' =>
      let count' := count + 1 in
      if 5 <=? count' then true else scanRun count' l'
  | Some false :: l' => scanRun 0 l'
  end.

(** The inclusive integer range of a [for (x = lo; x <= hi; ++x)] loop. *)
Definition zrange (lo hi : Z) : list Z := seqZ lo (hi - lo + 1).

Definition checkWin (b : Board) (row col player : Z) : bool :=
  scanRun 0 ((λ c, Some (cell b row c =? player)) <$>
             zrange (Z.max 0 (col - 4)) (Z.min (BOARD_SIZE - 1) (col + 4)))
  || scanRun 0 ((λ r, Some (cell b r col =? player)) <$>
                zrange (Z.max 0 (row - 4)) (Z.min (BOARD_SIZE - 1) (row + 4)))
  || scanRun 0 ((λ i, let r := row + i in let c := col + i in
                      if isValidPosition r c
                      then Some (cell b r c =? player) else None) <$>
                zrange (-4) 4)
  || scanRun 0 ((λ i, let r := row + i in let c := col - i in
                      if isValidPosition r c
                      then Some (cell b r c =? player) else None) <$>
                zrange (-4) 4).

Definition makeMove (row col player : Z) (st : Engine) : bool * Engine :=
  if negb (isValidPosition row col)
     || negb (cell (board st) row col =? EMPTY)
     || gameOver st
  then (false, st)
  else
    let b := setCell (board st) row col player in
    let h := mkMove row col player :: moveHistory st in
    if checkWin b row col player
    then (true, mkEngine b true player (difficulty st) h)
    else (true, mkEngine b (gameOver st) (winner st) (difficulty st) h).

(** ** Move generator *)

Definition hasNeighbors (b : Board) (row col : Z) : bool :=
  existsb (λ dr,
    existsb (λ dc,
      if (dr =? 0) && (dc =? 0) then false
      else
        let r := row + dr in
        let c := col + dc in
        isValidPosition r c && negb (cell b r c =? EMPTY))
      (zrange (-1) 1))
    (zrange (-1) 1).

(** The two nested [for] loops over the grid, pushing the cells that pass
    [keep] in scan order. *)
Definition scanCells (keep : Z → Z → bool) : list (Z * Z) :=
  flat_map (λ row,
    flat_map (λ col, if keep row col then [(row, col)] else [])
      (zrange 0 (BOARD_SIZE - 1)))
    (zrange 0 (BOARD_SIZE - 1)).

Definition generateMoves (b : Board) : list (Z * Z) :=
  let moves := scanCells (λ row col, (cell b row col =? EMPTY) && hasNeighbors b row col) in
  match moves with
  | [] => scanCells (λ row col, cell b row col =? EMPTY)
  | _ => moves
  end.

(** ** Evaluator *)

Definition evaluateSequence (aiCount playerCount : Z) : Z :=
  if (0 <? aiCount) && (0 <? playerCount) then 0
  else if (0 <? aiCount) && (aiCount =? 5) then 100000
  else if (0 <? aiCount) && (aiCount =? 4) then 10000
  else if (0 <? aiCount) && (aiCount =? 3) then 1000
  else if (0 <? aiCount) && (aiCount =? 2) then 100
  else if (0 <? aiCount) && (aiCount =? 1) then 10
  else if (0 <? playerCount) && (playerCount =? 5) then -100000
  else if (0 <? playerCount) && (playerCount =? 4) then -10000
  else if (0 <? playerCount) && (playerCount =? 3) then -1000
  else if (0 <? playerCount) && (playerCount =? 2) then -100
  else if (0 <? playerCount) && (playerCount =? 1) then -10
  else 0.

(** The inner [for (int i = 0; i < 5; ++i)] loop: [at i] is the cell the
    [i]-th iteration reads; the result is [(aiCount, playerCount)]. *)
Definition countSequence (b : Board) (at_ : Z → Z * Z) : Z * Z :=
  fold_left (λ '(aiCount, playerCount) i,
      let '(r, c) := at_ i in
      if cell b r c =? AI then (aiCount + 1, playerCount)
      else if cell b r c =? PLAYER then (aiCount, playerCount + 1)
      else (aiCount, playerCount))
    (zrange 0 4) (0, 0).

(** One pair of nested loops of [evaluateBoard], adding to [score]. *)
Definition scoreLoops (b : Board) (outer inner : list Z)
    (at_ : Z → Z → Z → Z * Z) (score : Z) : Z :=
  fold_left (λ score x,
      fold_left (λ score y,
          let '(aiCount, playerCount) := countSequence b (at_ x y) in
          score + evaluateSequence aiCount playerCount)
        inner score)
    outer score.

Definition evaluateBoard (b : Board) : Z :=
  let score := 0 in
  (* rows *)
  let score :=
    scoreLoops b (zrange 0 (BOARD_SIZE - 1)) (zrange 0 (BOARD_SIZE - 4 - 1))
      (λ row col i, (row, col + i)) score in
  (* columns *)
  let score :=
    scoreLoops b (zrange 0 (BOARD_SIZE - 1)) (zrange 0 (BOARD_SIZE - 4 - 1))
      (λ col row i, (row + i, col)) score in
  (* diagonals, top-left to bottom-right *)
  let score :=
    scoreLoops b (zrange 0 (BOARD_SIZE - 4 - 1)) (zrange 0 (BOARD_SIZE - 4 - 1))
      (λ row col i, (row + i, col + i)) score in
  (* diagonals, top-right to bottom-left *)
  let score :=
    scoreLoops b (zrange 0 (BOARD_SIZE - 4 - 1)) (zrange 4 (BOARD_SIZE - 1))
      (λ row col i, (row + i, col - i)) score in
  score.

(** ** Search *)

(** The maximizing loop of [alphaBetaPruning]; [search] is the recursive call
    one ply deeper.  The engine is threaded through because the loop writes
    the hypothetical stone into the board and takes it out again. *)
Fixpoint maxLoop (search : Z → Z → Engine → Z * Engine)
    (moves : list (Z * Z)) (alpha beta maxEval : Z) (st : Engine) : Z * Engine :=
  match moves with
  | [] => (maxEval, st)
  | (row, col) :: rest =>
      let st := with_board st (setCell (board st) row col AI) in
      let '(eval, st) := search alpha beta st in
      let st := with_board st (setCell (board st) row col EMPTY) in
      let maxEval := Z.max maxEval eval in
      let alpha := Z.max alpha eval in
      if beta <=? alpha then (maxEval, st)
      else maxLoop search rest alpha beta maxEval st
  end.

Fixpoint minLoop (search : Z → Z → Engine → Z * Engine)
    (moves : list (Z * Z)) (alpha beta minEval : Z) (st : Engine) : Z * Engine :=
  match moves with
  | [] => (minEval, st)
  | (row, col) :: rest =>
      let st := with_board st (setCell (board st) row col PLAYER) in
      let '(eval, st) := search alpha beta st in
      let st := with_board st (setCell (board st) row col EMPTY) in
      let minEval := Z.min minEval eval in
      let beta := Z.min beta eval in
      if beta <=? alpha then (minEval, st)
      else minLoop search rest alpha beta minEval st
  end.

Fixpoint alphaBetaPruning (depth : nat) (alpha beta : Z)
    (maximizingPlayer : bool) (st : Engine) : Z * Engine :=
  match depth with
  | O => (evaluateBoard (board st), st)
  | S depth' =>
      if gameOver st then (evaluateBoard (board st), st)
      else
        let moves := generateMoves (board st) in
        if maximizingPlayer
        then maxLoop (λ a b s, alphaBetaPruning depth' a b false s)
               moves alpha beta INT_MIN st
        else minLoop (λ a b s, alphaBetaPruning depth' a b true s)
               moves alpha beta INT_MAX st
  end.

(** The candidate loop of [getBestMove]. *)
Fixpoint bestLoop (search : Engine → Z * Engine) (moves : list (Z * Z))
    (bestScore : Z) (bestMove : Z * Z) (st : Engine) : (Z * Z) * Engine :=
  match moves with
  | [] => (bestMove, st)
  | (row, col) :: rest =>
      let st := with_board st (setCell (board st) row col AI) in
      let '(score, st) := search st in
      let st := with_board st (setCell (board st) row col EMPTY) in
      if bestScore <? score
      then bestLoop search rest score (row, col) st
      else bestLoop search rest bestScore bestMove st
  end.

Definition getBestMove (st : Engine) : (Z * Z) * Engine :=
  let moves := generateMoves (board st) in
  match moves with
  | [] =>
      if cell (board st) (BOARD_SIZE / 2) (BOARD_SIZE / 2) =? EMPTY
      then ((BOARD_SIZE / 2, BOARD_SIZE / 2), st)
      else ((-1, -1), st)
  | _ =>
      bestLoop
        (alphaBetaPruning (difficulty_depth (difficulty st)) INT_MIN INT_MAX false)
        moves INT_MIN (-1, -1) st
  end.

(** ** Specification vocabulary *)

(** The three reasons for which [makeMove] refuses a placement. *)
Definition rejected (row col : Z) (st : Engine) : Prop :=
  ¬ (0 <= row < BOARD_SIZE ∧ 0 <= col < BOARD_SIZE)
  ∨ cell (board st) row col ≠ EMPTY
  ∨ gameOver st = true.

(** Every cell of the grid, in the order the nested loops visit them. *)
Definition allCells : list (Z * Z) := scanCells (λ _ _, true).

(** The number of non-Empty cells of the grid. *)
Definition countStones (b : Board) : nat :=
  length (scanCells (λ row col, negb (cell b row col =? EMPTY))).

(** The cell a history record names. *)
Definition move_pos (m : Move) : Z * Z := (m_row m, m_col m).

(** The public operations a caller can apply to an engine. *)
Inductive Op :=
  | OpMakeMove (row col player : Z)
  | OpUndoMove
  | OpResetGame
  | OpGetBestMove
  | OpSetDifficulty (level : Difficulty).

(** The engine after one operation (return values are dropped). *)
Definition step (st : Engine) (o : Op) : Engine :=
  match o with
  | OpMakeMove row col player => snd (makeMove row col player st)
  | OpUndoMove => snd (undoMove st)
  | OpResetGame => resetGame st
  | OpGetBestMove => snd (getBestMove st)
  | OpSetDifficulty level => setDifficulty level st
  end.

Definition run (ops : list Op) (st : Engine) : Engine := fold_left step ops st.

(** Placements made on behalf of one of the two players. *)
Definition by_a_player (o : Op) : Prop :=
  match o with
  | OpMakeMove _ _ player => player = PLAYER ∨ player = AI
  | _ => True
  end.

(** What the history and the board have in common between operations. *)
Definition consistent (b : Board) (h : list Move) : Prop :=
  wf_board b ∧
  countStones b = length h ∧
  NoDup (move_pos <$> h) ∧
  ∀ m, m ∈ h →
    isValidPosition (m_row m) (m_col m) = true ∧
    cell b (m_row m) (m_col m) ≠ EMPTY.

(** Scan order of the grid: top to bottom, and left to right in a row. *)
Definition rowMajor_lt (p q : Z * Z) : Prop :=
  p.1 < q.1 ∨ (p.1 = q.1 ∧ p.2 < q.2).

(** [(r, c)] has a non-Empty cell of the grid among its up-to-8 neighbours. *)
Definition occupied_neighbor (b : Board) (r c : Z) : Prop :=
  ∃ r' c',
    (r', c') ≠ (r, c) ∧
    r - 1 <= r' <= r + 1 ∧ c - 1 <= c' <= c + 1 ∧
    (0 <= r' < BOARD_SIZE ∧ 0 <= c' < BOARD_SIZE) ∧
    cell b r' c' ≠ EMPTY.

(** An Empty cell of the grid. *)
Definition empty_cell (b : Board) (r c : Z) : Prop :=
  (0 <= r < BOARD_SIZE ∧ 0 <= c < BOARD_SIZE) ∧ cell b r c = EMPTY.

(** An Empty cell of the grid next to a stone. *)
Definition near_stone (b : Board) (r c : Z) : Prop :=
  empty_cell b r c ∧ occupied_neighbor b r c.

(** Five consecutive cells of the grid along direction [(dr, dc)], all equal
    to [player] and all at most 4 steps away from [(row, col)]: a run of five
    inside the clipped 9-cell window centred on [(row, col)]. *)
Definition run_of_five (b : Board) (row col player dr dc : Z) : Prop :=
  ∃ s, -4 <= s <= 0 ∧
    ∀ j, 0 <= j < 5 →
      (0 <= row + (s + j) * dr < BOARD_SIZE ∧
       0 <= col + (s + j) * dc < BOARD_SIZE) ∧
      cell b (row + (s + j) * dr) (col + (s + j) * dc) = player.

(** A sample position: five stones of the first player on row 7, columns
    3 to 7. *)
Definition fiveInRow : Board :=
  foldr (λ c b, setCell b 7 c PLAYER) emptyBoard [3; 4; 5; 6; 7].

(** *** The evaluator as the specification words it *)

(** A window: its first cell and the step to the next one. *)
Abbreviation Window := ((Z * Z) * (Z * Z))%type.

(** Along a row, along a column, and along the two diagonals. *)
Definition directions : list (Z * Z) := [(0, 1); (1, 0); (1, 1); (1, -1)].

(** The five consecutive cells of a window. *)
Definition window_cells (w : Window) : list (Z * Z) :=
  let '((r, c), (dr, dc)) := w in
  (λ i, (r + i * dr, c + i * dc)) <$> zrange 0 4.

(** A window fits when every one of its cells is on the grid. *)
Definition window_fits (w : Window) : bool :=
  forallb (λ p, isValidPosition p.1 p.2) (window_cells w).

(** Every length-5 window that fits fully on the board. *)
Definition all_windows : list Window :=
  flat_map (λ d,
    flat_map (λ p, if window_fits (p, d) then [(p, d)] else []) allCells)
    directions.

(** How many cells of a window hold the stone [who]. *)
Definition stones (b : Board) (who : Z) (w : Window) : Z :=
  Z.of_nat (length (List.filter (λ p, cell b p.1 p.2 =? who) (window_cells w))).

(** 1→10, 2→100, 3→1000, 4→10000, 5→100000. *)
Definition tier (n : Z) : Z :=
  if n =? 1 then 10
  else if n =? 2 then 100
  else if n =? 3 then 1000
  else if n =? 4 then 10000
  else if n =? 5 then 100000
  else 0.

(** The score of one window from its two stone counts: nothing for a window
    with stones of both players or with none, the tier of the count for the
    automated player alone, and its negation for the opponent alone. *)
Definition window_score (ai opp : Z) : Z :=
  if (0 <? ai) && (0 <? opp) then 0
  else if 0 <? ai then tier ai
  else if 0 <? opp then - tier opp
  else 0.

Definition sumZ (l : list Z) : Z := foldr Z.add 0 l.

(** The signed sum over all windows. *)
Definition score_spec (b : Board) : Z :=
  sumZ ((λ w, window_score (stones b AI w) (stones b PLAYER w)) <$> all_windows).

(** *** The windows [evaluateBoard] visits *)

(** The index pairs of two nested loops, outer index first. *)
Definition loopPairs (outer inner : list Z) : list (Z * Z) :=
  flat_map (λ x, (λ y, (x, y)) <$> inner) outer.

(** What one window adds to the score in [evaluateBoard]. *)
Definition sequenceScore (b : Board) (at_ : Z → Z * Z) : Z :=
  let '(aiCount, playerCount) := countSequence b at_ in
  evaluateSequence aiCount playerCount.

(** The windows of the four pairs of loops, in the order they are visited;
    the column loops have the column as their outer index. *)
Definition visited_windows : list Window :=
  ((λ p, ((p.1, p.2), (0, 1))) <$>
     loopPairs (zrange 0 (BOARD_SIZE - 1)) (zrange 0 (BOARD_SIZE - 4 - 1))) ++
  ((λ p, ((p.2, p.1), (1, 0))) <$>
     loopPairs (zrange 0 (BOARD_SIZE - 1)) (zrange 0 (BOARD_SIZE - 4 - 1))) ++
  ((λ p, ((p.1, p.2), (1, 1))) <$>
     loopPairs (zrange 0 (BOARD_SIZE - 4 - 1)) (zrange 0 (BOARD_SIZE - 4 - 1))) ++
  ((λ p, ((p.1, p.2), (1, -1))) <$>
     loopPairs (zrange 0 (BOARD_SIZE - 4 - 1)) (zrange 4 (BOARD_SIZE - 1))).

(** *** The search as the specification words it *)

(** Exhaustive depth-limited minimax: the recursion of [alphaBetaPruning]
    without bounds and without cut-offs, every candidate of every node being
    searched.  [over] is the engine's game-over flag, which hypothetical
    moves never change. *)
Fixpoint minimax (depth : nat) (maximizingPlayer : bool) (over : bool)
    (b : Board) : Z :=
  match depth with
  | O => evaluateBoard b
  | S depth' =>
      if over then evaluateBoard b
      else if maximizingPlayer
      then fold_left (λ maxEval p,
               Z.max maxEval (minimax depth' false over (setCell b p.1 p.2 AI)))
             (generateMoves b) INT_MIN
      else fold_left (λ minEval p,
               Z.min minEval (minimax depth' true over (setCell b p.1 p.2 PLAYER)))
             (generateMoves b) INT_MAX
  end.

(** The choice of [getBestMove] when every candidate is scored by exhaustive
    minimax: candidates in generator order, a later candidate replacing the
    best one only with a strictly greater score. *)
Definition bestMove_minimax (st : Engine) : Z * Z :=
  match generateMoves (board st) with
  | [] =>
      if cell (board st) (BOARD_SIZE / 2) (BOARD_SIZE / 2) =? EMPTY
      then (BOARD_SIZE / 2, BOARD_SIZE / 2)
      else (-1, -1)
  | moves =>
      snd (fold_left (λ best p,
               let score :=
                 minimax (difficulty_depth (difficulty st)) false (gameOver st)
                   (setCell (board st) p.1 p.2 AI) in
               if best.1 <? score then (score, p) else best)
             moves (INT_MIN, (-1, -1)))
  end.

(** What a fail-soft alpha-beta value [v] tells about the exact value [m]:
    at or below [alpha] it is an upper bound, at or above [beta] a lower
    bound, and strictly inside the window it is exact. *)
Definition fail_soft (alpha beta v m : Z) : Prop :=
  (v <= alpha → m <= v) ∧ (beta <= v → v <= m) ∧ (alpha < v < beta → v = m).

(** ** The C interface of [gomoku_wrapper.cpp]

    Each function casts the opaque handle back to the engine and forwards
    the call; the handle is modelled as the engine itself. *)

(** [static_cast<int>(difficulty)]. *)
Definition difficulty_code (d : Difficulty) : Z :=
  match d with EASY => 1 | MEDIUM => 3 | HARD => 5 end.

Definition getDifficulty (st : Engine) : Difficulty := difficulty st.
Definition isGameOver (st : Engine) : bool := gameOver st.
Definition getWinner (st : Engine) : Z := winner st.
Definition getBoard (st : Engine) : Board := board st.

Definition create_engine : Engine := newEngine.
Definition reset_game (st : Engine) : Engine := resetGame st.

Definition make_move (row col player : Z) (st : Engine) : Z * Engine :=
  let '(ok, st') := makeMove row col player st in
  ((if ok then 1 else 0), st').

Definition get_best_move (st : Engine) : (Z * Z) * Engine := getBestMove st.

Definition is_game_over (st : Engine) : Z := if isGameOver st then 1 else 0.
Definition get_winner (st : Engine) : Z := getWinner st.

Definition get_board_value (st : Engine) (row col : Z) : Z :=
  if (0 <=? row) && (row <? BOARD_SIZE) && (0 <=? col) && (col <? BOARD_SIZE)
  then cell (getBoard st) row col
  else -1.

Definition set_difficulty (level : Z) (st : Engine) : Engine :=
  let difficulty :=
    if level <=? 1 then EASY
    else if 5 <=? level then HARD
    else MEDIUM in
  setDifficulty difficulty st.

Definition get_difficulty (st : Engine) : Z := difficulty_code (getDifficulty st).

Definition undo_move (st : Engine) : Z * Engine :=
  let '(ok, st') := undoMove st in
  ((if ok then 1 else 0), st').

Definition can_undo (st : Engine) : Z := if canUndo st then 1 else 0.

(** ** Vocabulary of the further properties *)

(** The board obtained by replaying a history, oldest record first, on the
    empty board. *)
Definition replay (h : list Move) : Board :=
  foldr (λ m b, setCell b (m_row m) (m_col m) (m_player m)) emptyBoard h.

(** What [gameOver] and [winner] say together: an undecided game has no
    winner, and a decided one was won by the most recent move. *)
Definition status_ok (st : Engine) : Prop :=
  (gameOver st = false → winner st = EMPTY) ∧
  (gameOver st = true →
     ∃ m h, moveHistory st = m :: h ∧ winner st = m_player m ∧
            checkWin (board st) (m_row m) (m_col m) (m_player m) = true).

(** Somewhere on the grid, five consecutive cells along a row, a column or
    a diagonal all hold [player]. *)
Definition has_five (b : Board) (player : Z) : Prop :=
  ∃ r0 c0 dr dc,
    In (dr, dc) directions ∧
    ∀ j, 0 <= j < 5 →
      (0 <= r0 + j * dr < BOARD_SIZE ∧ 0 <= c0 + j * dc < BOARD_SIZE) ∧
      cell b (r0 + j * dr) (c0 + j * dc) = player.

(** Exchanging the stones of the two players. *)
Definition swapStone (v : Z) : Z :=
  if v =? AI then PLAYER else if v =? PLAYER then AI else v.

Definition swapStones (b : Board) : Board :=
  (λ line : list Z, swapStone <$> line) <$> b.

(** Neither player has five in a row. *)
Definition no_five (b : Board) : Prop := ¬ has_five b PLAYER ∧ ¬ has_five b AI.

(** What holds of an engine driven through its public operations by the two
    players: the board is the replay of the history, whose records name
    distinct cells of the grid and carry a player code; no position the
    history went through before its latest record shows five in a row, and
    neither does the present one while the game is undecided. *)
Definition played_out (st : Engine) : Prop :=
  board st = replay (moveHistory st) ∧
  NoDup (move_pos <$> moveHistory st) ∧
  (∀ m, m ∈ moveHistory st →
     isValidPosition (m_row m) (m_col m) = true ∧
     (m_player m = PLAYER ∨ m_player m = AI)) ∧
  (∀ k, (1 <= k)%nat → no_five (replay (drop k (moveHistory st)))) ∧
  (gameOver st = false → no_five (replay (moveHistory st))).

(** The Empty cells of the grid in scan order: the fallback list of
    [generateMoves]. *)
Definition emptyCells (b : Board) : list (Z * Z) :=
  scanCells (λ row col, cell b row col =? EMPTY).

(** A position with stones in pairs along the rows, shifted by one from a
    row to the next, where nobody has five in a row; it is full except for
    two opposite corners. *)
Definition nearlyFull : Board :=
  (λ r, (λ c, if bool_decide ((r, c) ∈ [(0, 0); (14, 14)]) then EMPTY
              else if Z.even (r + c / 2) then PLAYER else AI)
        <$> seqZ 0 15)
  <$> seqZ 0 15.
(** * Properties *)

(** ** The engine on small positions *)

Example checkWin_five : checkWin fiveInRow 7 5 PLAYER = true.
Proof. reflexivity. Qed.

Example checkWin_four :
  checkWin (setCell fiveInRow 7 3 EMPTY) 7 5 PLAYER = false.
Proof. reflexivity. Qed.

Example evaluateBoard_empty : evaluateBoard emptyBoard = 0.
Proof. by vm_compute. Qed.

Example evaluateBoard_centre_stone :
  evaluateBoard (setCell emptyBoard 7 7 AI) = 200.
Proof. by vm_compute. Qed.

Example generateMoves_centre_stone :
  generateMoves (setCell emptyBoard 7 7 AI) =
  [(6, 6); (6, 7); (6, 8); (7, 6); (7, 8); (8, 6); (8, 7); (8, 8)].
Proof. by vm_compute. Qed.

Example undoMove_after_win :
  let st := mkEngine fiveInRow true PLAYER MEDIUM
              [mkMove 7 7 PLAYER; mkMove 0 0 AI; mkMove 7 6 PLAYER] in
  fst (undoMove st) = true ∧
  gameOver (snd (undoMove st)) = false ∧
  winner (snd (undoMove st)) = EMPTY ∧
  moveHistory (snd (undoMove st)) = [mkMove 7 6 PLAYER].
Proof. by vm_compute. Qed.

(** ** Reading and writing cells *)

Lemma isValidPosition_spec (r c : Z) :
  isValidPosition r c = true ↔ 0 <= r < BOARD_SIZE ∧ 0 <= c < BOARD_SIZE.
Proof. unfold isValidPosition, BOARD_SIZE. lia. Qed.

Lemma wf_board_lookup (b : Board) (r c : Z) :
  wf_board b → isValidPosition r c = true →
  ∃ line, b !! Z.to_nat r = Some line ∧ (Z.to_nat c < length line)%nat.
Proof.
  intros [Hlen Hrows] [Hr Hc]%isValidPosition_spec.
  unfold BOARD_SIZE in *.
  destruct (lookup_lt_is_Some_2 b (Z.to_nat r)) as [line Hline]; [lia|].
  exists line. split; [done|].
  rewrite Forall_forall in Hrows.
  rewrite (Hrows line); [lia|]. by eapply list_elem_of_lookup_2.
Qed.

Lemma wf_setCell (b : Board) (r c v : Z) :
  wf_board b → wf_board (setCell b r c v).
Proof.
  intros [Hlen Hrows]. unfold setCell.
  destruct ((0 <=? r) && (0 <=? c)); [|done].
  split; [by rewrite length_alter|].
  apply Forall_alter; [done|].
  intros line _ Hl. by rewrite length_insert.
Qed.

Lemma wf_emptyBoard : wf_board emptyBoard.
Proof.
  split; [apply length_replicate|].
  apply Forall_replicate, length_replicate.
Qed.

Lemma cell_setCell_eq (b : Board) (r c v : Z) :
  wf_board b → isValidPosition r c = true → cell (setCell b r c v) r c = v.
Proof.
  intros Hwf Hv.
  destruct (wf_board_lookup b r c Hwf Hv) as (line & Hline & Hc).
  apply isValidPosition_spec in Hv as [Hr Hc'].
  unfold cell, setCell.
  replace ((0 <=? r) && (0 <=? c)) with true by lia.
  rewrite list_lookup_alter_eq, Hline. simpl.
  by rewrite list_lookup_insert_eq.
Qed.

Lemma cell_setCell_ne (b : Board) (r c v r' c' : Z) :
  (r, c) ≠ (r', c') → cell (setCell b r c v) r' c' = cell b r' c'.
Proof.
  intros Hne. unfold cell, setCell.
  destruct ((0 <=? r) && (0 <=? c)) eqn:Hrc; [|done].
  destruct ((0 <=? r') && (0 <=? c')) eqn:Hrc'; [|done].
  destruct (decide (Z.to_nat r = Z.to_nat r')) as [Heq|Hneq].
  - rewrite Heq, list_lookup_alter_eq.
    destruct (b !! Z.to_nat r') as [line|]; [simpl|done].
    rewrite list_lookup_insert_ne; [done|].
    intros Hcc. apply Hne. f_equal; lia.
  - by rewrite list_lookup_alter_ne.
Qed.

(** Clearing a cell reads back [EMPTY] there and nothing else moves; no
    shape assumption is needed since the model reads [EMPTY] off the grid. *)
Lemma cell_setCell_EMPTY (b : Board) (r c r' c' : Z) :
  cell (setCell b r c EMPTY) r' c' =
  if decide ((r, c) = (r', c')) then EMPTY else cell b r' c'.
Proof.
  case_decide as Heq; [|by apply cell_setCell_ne].
  injection Heq as <- <-. unfold cell, setCell.
  destruct ((0 <=? r) && (0 <=? c)); [|done].
  rewrite list_lookup_alter_eq.
  destruct (b !! Z.to_nat r) as [line|]; [simpl|done].
  destruct (decide (Z.to_nat c < length line)%nat).
  - by rewrite list_lookup_insert_eq.
  - rewrite list_insert_ge by lia.
    rewrite lookup_ge_None_2 by lia. done.
Qed.

Lemma setCell_setCell (b : Board) (r c v w : Z) :
  setCell (setCell b r c v) r c w = setCell b r c w.
Proof.
  unfold setCell. destruct ((0 <=? r) && (0 <=? c)); [|done].
  rewrite list_alter_alter_eq. apply list_alter_ext; [|done].
  intros line _. simpl. apply list_insert_insert_eq.
Qed.

Lemma setCell_cell (b : Board) (r c : Z) : setCell b r c (cell b r c) = b.
Proof.
  unfold setCell, cell. destruct ((0 <=? r) && (0 <=? c)); [|done].
  apply list_eq. intros i.
  destruct (decide (Z.to_nat r = i)) as [<-|Hne].
  - rewrite list_lookup_alter_eq.
    destruct (b !! Z.to_nat r) as [line|]; [simpl|done].
    f_equal. apply list_insert_id'. intros Hlt.
    destruct (lookup_lt_is_Some_2 line (Z.to_nat c) Hlt) as [x Hx].
    by rewrite Hx.
  - by rewrite list_lookup_alter_ne.
Qed.

(** Writing a stone into a cell and clearing it again gives the board back
    when the cell was [EMPTY] to begin with. *)
Lemma setCell_restore (b : Board) (r c v : Z) :
  cell b r c = EMPTY → setCell (setCell b r c v) r c EMPTY = b.
Proof. intros <-. rewrite setCell_setCell. apply setCell_cell. Qed.

(** ** Placing a stone *)

Lemma makeMove_guard (row col : Z) (st : Engine) :
  negb (isValidPosition row col)
  || negb (cell (board st) row col =? EMPTY) || gameOver st = true
  ↔ rejected row col st.
Proof.
  unfold rejected.
  rewrite !orb_true_iff, !negb_true_iff, <- not_true_iff_false,
    isValidPosition_spec, Z.eqb_neq.
  tauto.
Qed.

Lemma makeMove_rejected (row col player : Z) (st : Engine) :
  rejected row col st → makeMove row col player st = (false, st).
Proof.
  intros H%makeMove_guard. unfold makeMove. by rewrite H.
Qed.

Lemma makeMove_accepted (row col player : Z) (st : Engine) :
  ¬ rejected row col st →
  makeMove row col player st =
  (true,
   mkEngine (setCell (board st) row col player)
     (checkWin (setCell (board st) row col player) row col player)
     (if checkWin (setCell (board st) row col player) row col player
      then player else winner st)
     (difficulty st)
     (mkMove row col player :: moveHistory st)).
Proof.
  intros H. unfold makeMove.
  destruct (negb (isValidPosition row col)
            || negb (cell (board st) row col =? EMPTY) || gameOver st) eqn:Hg.
  { exfalso. by apply H, makeMove_guard. }
  apply orb_false_iff in Hg as [_ Hover].
  destruct (checkWin _ _ _ _); by rewrite ?Hover.
Qed.

Lemma rejected_dec (row col : Z) (st : Engine) : Decision (rejected row col st).
Proof. unfold rejected. apply _. Defined.

(** C1. [makeMove] returns false exactly when the coordinates are off the
    grid, the target cell is not Empty or the game is already decided, and
    then (and only then) the engine is left as it was.  On success exactly
    the target cell becomes [player], exactly one [Move (row, col, player)]
    is pushed on the history, and the game becomes decided with winner
    [player] exactly when [checkWin] reports a win at [(row, col)]. *)
Theorem makeMove_spec (row col player : Z) (st : Engine) :
  wf_board (board st) →
  let ok := fst (makeMove row col player st) in
  let st' := snd (makeMove row col player st) in
  (ok = false ↔ rejected row col st) ∧
  (st' = st ↔ rejected row col st) ∧
  (ok = true →
     (∀ r c, cell (board st') r c =
             if decide ((r, c) = (row, col)) then player
             else cell (board st) r c) ∧
     moveHistory st' = mkMove row col player :: moveHistory st ∧
     difficulty st' = difficulty st ∧
     (gameOver st' = true ∧ winner st' = player
      ↔ checkWin (board st') row col player = true) ∧
     (checkWin (board st') row col player = false →
      gameOver st' = false ∧ winner st' = winner st)).
Proof.
  intros Hwf ok st'. subst ok st'.
  destruct (rejected_dec row col st) as [Hrej|Hacc].
  - rewrite (makeMove_rejected _ _ _ _ Hrej). simpl.
    split_and!; [tauto|tauto|discriminate].
  - rewrite (makeMove_accepted _ _ _ _ Hacc). simpl.
    split_and!.
    + split; [discriminate|tauto].
    + split; [|tauto]. intros Heq. apply (f_equal moveHistory) in Heq.
      simpl in Heq. apply (f_equal length) in Heq. simpl in Heq. lia.
    + intros _. split_and!; try done.
      * intros r c. case_decide as Heq.
        -- injection Heq as -> ->. apply cell_setCell_eq; [done|].
           apply isValidPosition_spec.
           destruct (decide (0 <= row < BOARD_SIZE ∧ 0 <= col < BOARD_SIZE));
             [done|]. exfalso. apply Hacc. by left.
        -- apply cell_setCell_ne. congruence.
      * destruct (checkWin _ _ _ _); split; try done. by intros [? _].
      * by intros ->.
Qed.

Lemma makeMove_spec_witness :
  wf_board (board newEngine) ∧
  moveHistory (snd (makeMove 7 7 PLAYER newEngine)) = [mkMove 7 7 PLAYER].
Proof.
  split; [apply wf_emptyBoard|].
  destruct (makeMove_spec 7 7 PLAYER newEngine wf_emptyBoard) as (_ & _ & H).
  apply H. reflexivity.
Defined.

(** ** Taking moves back *)

Lemma undoMove_empty (st : Engine) :
  moveHistory st = [] → undoMove st = (false, st).
Proof. intros H. unfold undoMove. by rewrite H. Qed.

Lemma undoMove_nonempty (st : Engine) :
  moveHistory st ≠ [] →
  undoMove st =
  (true,
   mkEngine (fst (undoLoop 2 (board st) (moveHistory st)))
     false (if gameOver st then EMPTY else winner st) (difficulty st)
     (snd (undoLoop 2 (board st) (moveHistory st)))).
Proof.
  intros H. unfold undoMove.
  destruct (moveHistory st) as [|m h] eqn:Hh; [done|].
  destruct (undoLoop 2 (board st) (m :: h)) as [b' h'].
  destruct (gameOver st) eqn:Hg; simpl; by rewrite ?Hg.
Qed.

Lemma undoLoop_history (n : nat) (b : Board) (h : list Move) :
  snd (undoLoop n b h) = drop (n `min` length h) h.
Proof.
  revert b h. induction n as [|n IH]; intros b [|m h]; simpl; done.
Qed.

Lemma undoLoop_cells (n : nat) (b : Board) (h : list Move) (r c : Z) :
  cell (fst (undoLoop n b h)) r c =
  if bool_decide ((r, c) ∈ move_pos <$> take (n `min` length h) h)
  then EMPTY else cell b r c.
Proof.
  revert b h. induction n as [|n IH]; intros b [|m h]; simpl; try done.
  rewrite IH, cell_setCell_EMPTY.
  fold (move_pos m).
  destruct (decide ((r, c) = move_pos m)) as [Heq|Hne].
  - rewrite (bool_decide_eq_true_2 (_ ∈ _ :: _)) by (rewrite Heq; left).
    rewrite decide_True by done. by destruct (bool_decide _).
  - rewrite decide_False by done.
    rewrite (bool_decide_ext (_ ∈ _ :: _) ((r, c) ∈
      move_pos <$> take (n `min` length h) h)); [done|].
    rewrite elem_of_cons. split; [by intros [?|?]|by right].
Qed.

(** C9. [undoMove] returns false and leaves the engine alone exactly when
    the history is empty.  Otherwise it returns true, pops the
    [min 2 (length history)] most recent records, clears exactly the cells
    those records name, and the game is in progress afterwards: a decided
    game loses its winner whichever moves were taken back. *)
Theorem undoMove_spec (st : Engine) :
  let ok := fst (undoMove st) in
  let st' := snd (undoMove st) in
  let k := (2 `min` length (moveHistory st))%nat in
  (ok = false ↔ moveHistory st = []) ∧
  (st' = st ↔ moveHistory st = []) ∧
  (moveHistory st ≠ [] →
     ok = true ∧
     moveHistory st' = drop k (moveHistory st) ∧
     (∀ r c, cell (board st') r c =
             if bool_decide ((r, c) ∈ move_pos <$> take k (moveHistory st))
             then EMPTY else cell (board st) r c) ∧
     gameOver st' = false ∧
     winner st' = (if gameOver st then EMPTY else winner st) ∧
     difficulty st' = difficulty st).
Proof.
  intros ok st' k. subst ok st' k.
  destruct (decide (moveHistory st = [])) as [He|Hne].
  - rewrite (undoMove_empty _ He). simpl. by split_and!.
  - rewrite (undoMove_nonempty _ Hne).
    cbn [fst snd board moveHistory gameOver winner difficulty]. split_and!.
    + split; [discriminate|done].
    + split; [|done]. intros Heq. apply (f_equal moveHistory) in Heq.
      cbn [moveHistory] in Heq. rewrite undoLoop_history in Heq.
      apply (f_equal length) in Heq. rewrite length_drop in Heq.
      destruct (moveHistory st); [done|]. simpl in Heq. lia.
    + intros _. split_and!; try done.
      * apply undoLoop_history.
      * intros r c. apply undoLoop_cells.
Qed.

(** ** The grid scan and the stone count *)

Lemma elem_of_zrange (lo hi x : Z) : x ∈ zrange lo hi ↔ lo <= x <= hi.
Proof. unfold zrange. rewrite elem_of_seqZ. lia. Qed.

Lemma flat_map_filter_grid (keep : Z → Z → bool) (rows cols : list Z) :
  flat_map (λ row,
    flat_map (λ col, if keep row col then [(row, col)] else []) cols) rows =
  List.filter (λ p, keep p.1 p.2)
    (flat_map (λ row, flat_map (λ col, [(row, col)]) cols) rows).
Proof.
  induction rows as [|row rows IH]; [done|].
  simpl. rewrite List.filter_app, <- IH. f_equal.
  clear. induction cols as [|col cols IH]; [done|].
  simpl. rewrite <- IH. by destruct (keep row col).
Qed.

Lemma scanCells_filter (keep : Z → Z → bool) :
  scanCells keep = List.filter (λ p, keep p.1 p.2) allCells.
Proof. apply flat_map_filter_grid. Qed.

Lemma In_allCells (r c : Z) : In (r, c) allCells ↔ isValidPosition r c = true.
Proof.
  unfold allCells, scanCells. rewrite in_flat_map, isValidPosition_spec.
  split.
  - intros (row & Hrow & Hin). apply in_flat_map in Hin as (col & Hcol & Hin).
    apply list_elem_of_In, elem_of_zrange in Hrow, Hcol.
    destruct Hin as [[= <- <-]|[]]. unfold BOARD_SIZE in *. lia.
  - intros [Hr Hc]. exists r. split.
    + apply list_elem_of_In, elem_of_zrange. lia.
    + apply in_flat_map. exists c. split; [|by left].
      apply list_elem_of_In, elem_of_zrange. lia.
Qed.

Lemma In_scanCells (keep : Z → Z → bool) (r c : Z) :
  In (r, c) (scanCells keep) ↔ isValidPosition r c = true ∧ keep r c = true.
Proof. by rewrite scanCells_filter, List.filter_In, In_allCells. Qed.

Lemma NoDup_allCells : NoDup allCells.
Proof. apply (bool_decide_unpack (NoDup allCells)). vm_compute. exact I. Qed.

Lemma filter_length_flip {A} (f g : A → bool) (x : A) (l : list A) :
  NoDup l → In x l → (∀ y, y ≠ x → f y = g y) → f x = false → g x = true →
  length (List.filter g l) = S (length (List.filter f l)).
Proof.
  intros Hnd Hin Hfg Hf Hg.
  induction Hnd as [|y l Hy Hnd IH]; [destruct Hin|].
  assert (Hin_l : ∀ z, In z l → z ≠ y).
  { intros z Hz ->. by apply Hy, list_elem_of_In. }
  destruct Hin as [->|Hin]; simpl.
  - rewrite Hf, Hg. simpl. f_equal. f_equal.
    apply filter_ext_in. intros z Hz. symmetry. by apply Hfg, Hin_l.
  - rewrite <- (Hfg y) by (intros ->; by eapply Hin_l).
    destruct (f y); simpl; by rewrite IH.
Qed.

Lemma countStones_place (b : Board) (r c v : Z) :
  wf_board b → isValidPosition r c = true → cell b r c = EMPTY → v ≠ EMPTY →
  countStones (setCell b r c v) = S (countStones b).
Proof.
  intros Hwf Hv He Hne. unfold countStones. rewrite !scanCells_filter.
  apply (filter_length_flip _ _ (r, c)).
  - apply NoDup_allCells.
  - by apply In_allCells.
  - intros [r' c'] Hpos. simpl. rewrite cell_setCell_ne; [done|congruence].
  - simpl. by rewrite He.
  - simpl. rewrite cell_setCell_eq by done. apply negb_true_iff. by apply Z.eqb_neq.
Qed.

Lemma countStones_clear (b : Board) (r c : Z) :
  isValidPosition r c = true → cell b r c ≠ EMPTY →
  countStones b = S (countStones (setCell b r c EMPTY)).
Proof.
  intros Hv Hne. unfold countStones. rewrite !scanCells_filter.
  apply (filter_length_flip _ _ (r, c)).
  - apply NoDup_allCells.
  - by apply In_allCells.
  - intros [r' c'] Hpos. simpl. rewrite cell_setCell_ne; [done|congruence].
  - simpl. rewrite cell_setCell_EMPTY, decide_True by done. done.
  - simpl. apply negb_true_iff. by apply Z.eqb_neq.
Qed.

Lemma countStones_emptyBoard : countStones emptyBoard = 0%nat.
Proof. by vm_compute. Qed.

(** ** The search gives the engine back as it found it *)

Lemma with_board_board (st : Engine) : with_board st (board st) = st.
Proof. by destruct st. Qed.

Lemma with_board_with_board (st : Engine) (b b' : Board) :
  with_board (with_board st b) b' = with_board st b'.
Proof. done. Qed.

Lemma generateMoves_EMPTY (b : Board) (r c : Z) :
  In (r, c) (generateMoves b) → cell b r c = EMPTY.
Proof.
  unfold generateMoves.
  destruct (scanCells (λ row col, (cell b row col =? EMPTY) && hasNeighbors b row col))
    as [|p l] eqn:Hs.
  - intros [_ H]%In_scanCells. by apply Z.eqb_eq.
  - rewrite <- Hs. intros [_ H]%In_scanCells.
    apply andb_true_iff in H as [H _]. by apply Z.eqb_eq.
Qed.

(** One hypothetical placement followed by its retraction. *)
Lemma try_move_restores (st : Engine) (r c v : Z) :
  cell (board st) r c = EMPTY →
  with_board (with_board st (setCell (board st) r c v))
    (setCell (board (with_board st (setCell (board st) r c v))) r c EMPTY) = st.
Proof.
  intros He. simpl. rewrite with_board_with_board, setCell_restore by done.
  apply with_board_board.
Qed.

Section Frame.
Variable search : Z → Z → Engine → Z * Engine.
Hypothesis search_frame : ∀ a b s, snd (search a b s) = s.

Lemma maxLoop_frame (moves : list (Z * Z)) (alpha beta maxEval : Z) (st : Engine) :
  (∀ r c, In (r, c) moves → cell (board st) r c = EMPTY) →
  snd (maxLoop search moves alpha beta maxEval st) = st.
Proof.
  revert alpha maxEval.
  induction moves as [|[r c] rest IH]; intros alpha maxEval Hm; [done|].
  simpl.
  pose proof (search_frame alpha beta
                (with_board st (setCell (board st) r c AI))) as Hs.
  destruct (search alpha beta _) as [eval st2]. simpl in Hs. subst st2.
  rewrite try_move_restores by (apply Hm; by left).
  destruct (beta <=? Z.max alpha eval); [done|].
  apply IH. intros r' c' Hin. apply Hm. by right.
Qed.

Lemma minLoop_frame (moves : list (Z * Z)) (alpha beta minEval : Z) (st : Engine) :
  (∀ r c, In (r, c) moves → cell (board st) r c = EMPTY) →
  snd (minLoop search moves alpha beta minEval st) = st.
Proof.
  revert beta minEval.
  induction moves as [|[r c] rest IH]; intros beta minEval Hm; [done|].
  simpl.
  pose proof (search_frame alpha beta
                (with_board st (setCell (board st) r c PLAYER))) as Hs.
  destruct (search alpha beta _) as [eval st2]. simpl in Hs. subst st2.
  rewrite try_move_restores by (apply Hm; by left).
  destruct (Z.min beta eval <=? alpha); [done|].
  apply IH. intros r' c' Hin. apply Hm. by right.
Qed.
End Frame.

Lemma alphaBetaPruning_frame (depth : nat) (alpha beta : Z)
    (maximizingPlayer : bool) (st : Engine) :
  snd (alphaBetaPruning depth alpha beta maximizingPlayer st) = st.
Proof.
  revert alpha beta maximizingPlayer st.
  induction depth as [|depth IH]; intros alpha beta mx st; [done|].
  simpl. destruct (gameOver st); [done|].
  destruct mx.
  - apply maxLoop_frame; [intros; apply IH|apply generateMoves_EMPTY].
  - apply minLoop_frame; [intros; apply IH|apply generateMoves_EMPTY].
Qed.

Lemma bestLoop_frame (search : Engine → Z * Engine) (moves : list (Z * Z))
    (bestScore : Z) (bestMove : Z * Z) (st : Engine) :
  (∀ s, snd (search s) = s) →
  (∀ r c, In (r, c) moves → cell (board st) r c = EMPTY) →
  snd (bestLoop search moves bestScore bestMove st) = st.
Proof.
  intros Hsearch. revert bestScore bestMove.
  induction moves as [|[r c] rest IH]; intros bestScore bestMove Hm; [done|].
  simpl.
  pose proof (Hsearch (with_board st (setCell (board st) r c AI))) as Hs.
  destruct (search _) as [score st2]. simpl in Hs. subst st2.
  rewrite try_move_restores by (apply Hm; by left).
  destruct (bestScore <? score); apply IH; intros r' c' Hin; apply Hm; by right.
Qed.

Lemma getBestMove_frame (st : Engine) : snd (getBestMove st) = st.
Proof.
  unfold getBestMove.
  destruct (generateMoves (board st)) as [|p l] eqn:Hg.
  - by destruct (cell _ _ _ =? EMPTY).
  - apply bestLoop_frame; [intros; apply alphaBetaPruning_frame|].
    rewrite <- Hg. apply generateMoves_EMPTY.
Qed.

(** C6. [getBestMove] and every call of [alphaBetaPruning], whatever its
    depth, window and side, and whether or not its loop stops at a cut-off,
    hand back the engine they were given: board, history, [gameOver],
    [winner] and difficulty are all as before the call. *)
Theorem search_leaves_engine_unchanged :
  (∀ st, snd (getBestMove st) = st) ∧
  (∀ depth alpha beta maximizingPlayer st,
     snd (alphaBetaPruning depth alpha beta maximizingPlayer st) = st).
Proof. split; [apply getBestMove_frame|apply alphaBetaPruning_frame]. Qed.

(** ** History and board stay in step *)

Lemma consistent_reset : consistent emptyBoard [].
Proof.
  split_and!.
  - apply wf_emptyBoard.
  - apply countStones_emptyBoard.
  - constructor.
  - intros m Hm. by apply elem_of_nil in Hm.
Qed.

Lemma consistent_place (b : Board) (h : list Move) (r c p : Z) :
  consistent b h → isValidPosition r c = true → cell b r c = EMPTY →
  p ≠ EMPTY → consistent (setCell b r c p) (mkMove r c p :: h).
Proof.
  intros (Hwf & Hcnt & Hnd & Hh) Hv He Hp.
  assert (Hfresh : ∀ m, m ∈ h → (r, c) ≠ move_pos m).
  { intros m Hm Heq. destruct (Hh m Hm) as [_ Hne].
    injection Heq as -> ->. done. }
  split_and!.
  - by apply wf_setCell.
  - rewrite countStones_place by done. simpl. by rewrite Hcnt.
  - rewrite fmap_cons. apply NoDup_cons. split; [|done].
    intros (m & Hpos & Hm)%list_elem_of_fmap. by apply (Hfresh m).
  - intros m [->|Hm]%elem_of_cons; simpl.
    + split; [done|]. by rewrite cell_setCell_eq.
    + destruct (Hh m Hm) as [Hvm Hne]. split; [done|].
      rewrite cell_setCell_ne; [done|]. by apply Hfresh.
Qed.

Lemma consistent_pop (b : Board) (h : list Move) (m : Move) :
  consistent b (m :: h) →
  consistent (setCell b (m_row m) (m_col m) EMPTY) h.
Proof.
  intros (Hwf & Hcnt & Hnd & Hh).
  rewrite fmap_cons in Hnd. apply NoDup_cons in Hnd as [Hm Hnd].
  destruct (Hh m) as [Hv Hne]; [by left|].
  split_and!.
  - by apply wf_setCell.
  - rewrite (countStones_clear b (m_row m) (m_col m)) in Hcnt by done.
    simpl in Hcnt. lia.
  - done.
  - intros m' Hm'. destruct (Hh m') as [Hv' Hne']; [by right|].
    split; [done|]. rewrite cell_setCell_ne; [done|].
    intros Heq. apply Hm. apply list_elem_of_fmap. by exists m'.
Qed.

Lemma consistent_undoLoop (n : nat) (b : Board) (h : list Move) :
  consistent b h →
  consistent (fst (undoLoop n b h)) (snd (undoLoop n b h)).
Proof.
  revert b h. induction n as [|n IH]; intros b [|m h] Hc; simpl; try done.
  by apply IH, consistent_pop.
Qed.

Lemma consistent_step (st : Engine) (o : Op) :
  by_a_player o →
  consistent (board st) (moveHistory st) →
  consistent (board (step st o)) (moveHistory (step st o)).
Proof.
  intros Ho Hc. destruct o as [row col player| | | |level]; cbn [step].
  - destruct (rejected_dec row col st) as [Hrej|Hacc].
    + by rewrite (makeMove_rejected _ _ _ _ Hrej).
    + rewrite (makeMove_accepted _ _ _ _ Hacc). simpl.
      unfold rejected in Hacc.
      apply consistent_place; [done| | |].
      * apply isValidPosition_spec.
        destruct (decide (0 <= row < BOARD_SIZE ∧ 0 <= col < BOARD_SIZE));
          [done|]. exfalso. apply Hacc. by left.
      * destruct (decide (cell (board st) row col = EMPTY)); [done|].
        exfalso. apply Hacc. right. by left.
      * simpl in Ho. unfold PLAYER, AI, EMPTY in *. lia.
  - destruct (decide (moveHistory st = [])) as [He|Hne].
    + by rewrite (undoMove_empty _ He).
    + rewrite (undoMove_nonempty _ Hne). cbn [snd board moveHistory].
      by apply consistent_undoLoop.
  - apply consistent_reset.
  - by rewrite getBestMove_frame.
  - done.
Qed.

Lemma consistent_run (ops : list Op) (st : Engine) :
  Forall by_a_player ops →
  consistent (board st) (moveHistory st) →
  consistent (board (run ops st)) (moveHistory (run ops st)).
Proof.
  intros Hops. revert st.
  induction Hops as [|o ops Ho Hops IH]; intros st Hc; [done|].
  simpl. apply IH. by apply consistent_step.
Qed.

(** C7. Starting from a freshly constructed engine, or from any engine that
    has just been reset, every sequence of [makeMove] (with the player code of
    one of the two players), [undoMove], [resetGame], [getBestMove] and
    [setDifficulty] leaves the history as long as the board has non-Empty
    cells. *)
Theorem history_length_counts_stones (ops : list Op) (st0 : Engine) :
  Forall by_a_player ops →
  length (moveHistory (run ops newEngine))
  = countStones (board (run ops newEngine)) ∧
  length (moveHistory (run ops (resetGame st0)))
  = countStones (board (run ops (resetGame st0))).
Proof.
  intros Hops. split.
  - destruct (consistent_run ops newEngine Hops consistent_reset)
      as (_ & Hcnt & _). done.
  - destruct (consistent_run ops (resetGame st0) Hops consistent_reset)
      as (_ & Hcnt & _). done.
Qed.

Lemma history_length_counts_stones_witness :
  Forall by_a_player
    [OpMakeMove 7 7 PLAYER; OpGetBestMove; OpMakeMove 7 8 AI; OpUndoMove] ∧
  length (moveHistory
            (run [OpMakeMove 7 7 PLAYER; OpGetBestMove; OpMakeMove 7 8 AI;
                  OpUndoMove] newEngine))
  = countStones
      (board (run [OpMakeMove 7 7 PLAYER; OpGetBestMove; OpMakeMove 7 8 AI;
                   OpUndoMove] newEngine)).
Proof.
  assert (H : Forall by_a_player
    [OpMakeMove 7 7 PLAYER; OpGetBestMove; OpMakeMove 7 8 AI; OpUndoMove]).
  { repeat first [apply Forall_nil_2 | apply Forall_cons_2]; simpl; auto. }
  split; [exact H|].
  exact (proj1 (history_length_counts_stones _ newEngine H)).
Defined.

(** ** The player argument is not checked *)

(** C10. [makeMove] accepts any integer as [player]: on an in-range Empty
    cell of an undecided game it returns true, writes [player] into the cell
    and pushes [(row, col, player)] on the history.  With [player = EMPTY]
    the board is left as it was, so the history grows by one record while
    the number of non-Empty cells stays the same. *)
Theorem makeMove_any_player (row col player : Z) (st : Engine) :
  wf_board (board st) →
  isValidPosition row col = true →
  cell (board st) row col = EMPTY →
  gameOver st = false →
  let st' := snd (makeMove row col player st) in
  fst (makeMove row col player st) = true ∧
  cell (board st') row col = player ∧
  moveHistory st' = mkMove row col player :: moveHistory st ∧
  (player = EMPTY →
     board st' = board st ∧
     countStones (board st') = countStones (board st) ∧
     length (moveHistory st') = S (length (moveHistory st))).
Proof.
  intros Hwf Hv He Hg st'. subst st'.
  assert (Hacc : ¬ rejected row col st).
  { apply isValidPosition_spec in Hv. unfold rejected.
    rewrite Hg. intros [?|[?|?]]; done. }
  rewrite (makeMove_accepted _ _ _ _ Hacc). cbn [fst snd board moveHistory].
  split_and!; try done.
  - by apply cell_setCell_eq.
  - intros ->. pose proof (setCell_cell (board st) row col) as Hb.
    rewrite He in Hb. by rewrite Hb.
Qed.

Lemma makeMove_any_player_witness :
  fst (makeMove 7 7 EMPTY newEngine) = true ∧
  board (snd (makeMove 7 7 EMPTY newEngine)) = board newEngine ∧
  length (moveHistory (snd (makeMove 7 7 EMPTY newEngine))) = 1%nat.
Proof.
  destruct (makeMove_any_player 7 7 EMPTY newEngine)
    as (Hok & _ & _ & Hempty).
  - apply wf_emptyBoard.
  - reflexivity.
  - reflexivity.
  - reflexivity.
  - destruct (Hempty eq_refl) as (Hb & _ & Hlen).
    split_and!; [exact Hok|exact Hb|exact Hlen].
Defined.

(** ** Move generator *)

Lemma rowMajor_lt_dec (p q : Z * Z) : Decision (rowMajor_lt p q).
Proof. unfold rowMajor_lt. apply _. Defined.

Lemma StronglySorted_allCells : StronglySorted rowMajor_lt allCells.
Proof.
  apply (bool_decide_unpack (StronglySorted rowMajor_lt allCells)
           (dec := @StronglySorted_dec _ _ rowMajor_lt_dec _)).
  vm_compute. exact I.
Qed.

Lemma StronglySorted_filter {A} (R : A → A → Prop) (f : A → bool) (l : list A) :
  StronglySorted R l → StronglySorted R (List.filter f l).
Proof.
  induction 1 as [|x l Hl IH Hx]; simpl; [constructor|].
  destruct (f x); [|done].
  constructor; [done|].
  rewrite Forall_forall in Hx |- *.
  intros y Hy%list_elem_of_In%List.filter_In. apply Hx, list_elem_of_In. tauto.
Qed.

Lemma StronglySorted_scanCells (keep : Z → Z → bool) :
  StronglySorted rowMajor_lt (scanCells keep).
Proof.
  rewrite scanCells_filter. apply StronglySorted_filter, StronglySorted_allCells.
Qed.

Lemma hasNeighbors_spec (b : Board) (r c : Z) :
  hasNeighbors b r c = true ↔ occupied_neighbor b r c.
Proof.
  unfold hasNeighbors, occupied_neighbor. rewrite existsb_exists. split.
  - intros (dr & Hdr%list_elem_of_In%elem_of_zrange & H).
    apply existsb_exists in H as (dc & Hdc%list_elem_of_In%elem_of_zrange & H).
    destruct ((dr =? 0) && (dc =? 0)) eqn:Hz; [done|].
    apply andb_true_iff in H as [Hv%isValidPosition_spec Hne%negb_true_iff%Z.eqb_neq].
    exists (r + dr), (c + dc). split_and!; try done; try lia.
    intros [= ? ?]. apply andb_false_iff in Hz as [?%Z.eqb_neq|?%Z.eqb_neq]; lia.
  - intros (r' & c' & Hpos & Hr & Hc & Hv & Hne).
    exists (r' - r). split; [apply list_elem_of_In, elem_of_zrange; lia|].
    apply existsb_exists. exists (c' - c).
    split; [apply list_elem_of_In, elem_of_zrange; lia|].
    destruct ((r' - r =? 0) && (c' - c =? 0)) eqn:Hz.
    { apply andb_true_iff in Hz as [?%Z.eqb_eq ?%Z.eqb_eq].
      exfalso. apply Hpos. f_equal; lia. }
    replace (r + (r' - r)) with r' by lia.
    replace (c + (c' - c)) with c' by lia.
    apply andb_true_iff. split; [by apply isValidPosition_spec|].
    by apply negb_true_iff, Z.eqb_neq.
Qed.

Lemma In_scanCells_near (b : Board) (r c : Z) :
  In (r, c) (scanCells (λ row col, (cell b row col =? EMPTY) && hasNeighbors b row col))
  ↔ near_stone b r c.
Proof.
  rewrite In_scanCells, isValidPosition_spec, andb_true_iff, Z.eqb_eq,
    hasNeighbors_spec.
  unfold near_stone, empty_cell. tauto.
Qed.

Lemma In_scanCells_empty (b : Board) (r c : Z) :
  In (r, c) (scanCells (λ row col, cell b row col =? EMPTY)) ↔ empty_cell b r c.
Proof.
  rewrite In_scanCells, isValidPosition_spec, Z.eqb_eq. done.
Qed.

(** C8. [generateMoves] lists its cells in row-major order, without
    repetition.  When some Empty cell of the grid has an occupied cell among
    its up-to-8 neighbours on the grid, the list holds exactly the Empty cells
    that do; when none has, it holds exactly the Empty cells of the grid.
    The function reads the board and returns only the list, so the board is
    the same after the call. *)
Theorem generateMoves_spec (b : Board) :
  StronglySorted rowMajor_lt (generateMoves b) ∧
  ((∃ r c, near_stone b r c) →
     ∀ r c, In (r, c) (generateMoves b) ↔ near_stone b r c) ∧
  ((¬ ∃ r c, near_stone b r c) →
     ∀ r c, In (r, c) (generateMoves b) ↔ empty_cell b r c).
Proof.
  unfold generateMoves.
  destruct (scanCells (λ row col, (cell b row col =? EMPTY) && hasNeighbors b row col))
    as [|p l] eqn:Hs.
  - split_and!.
    + apply StronglySorted_scanCells.
    + intros (r & c & Hn). apply In_scanCells_near in Hn.
      rewrite Hs in Hn. destruct Hn.
    + intros _ r c. apply In_scanCells_empty.
  - rewrite <- Hs. split_and!.
    + apply StronglySorted_scanCells.
    + intros _ r c. apply In_scanCells_near.
    + intros Hnone. exfalso. apply Hnone. destruct p as [r c].
      exists r, c. apply In_scanCells_near. rewrite Hs. by left.
Qed.

(** ** Win detector *)

(** The scan answers true when the counter reaches five: either the cells
    still missing on top of [count] come first, or five in a row follow
    somewhere later. *)
Lemma scanRun_Some (l : list bool) (count : Z) :
  0 <= count <= 4 →
  scanRun count (Some <$> l) = true ↔
  (∀ j : nat, Z.of_nat j < 5 - count → l !! j = Some true)
  ∨ ∃ i : nat, ∀ j : nat, (j < 5)%nat → l !! (i + j)%nat = Some true.
Proof.
  revert count. induction l as [|x l IH]; intros count Hc.
  - simpl. split; [done|]. intros [H|[i H]].
    + specialize (H 0%nat ltac:(lia)). done.
    + specialize (H 0%nat ltac:(lia)). by rewrite lookup_nil in H.
  - rewrite fmap_cons. destruct x; simpl.
    + destruct (5 <=? count + 1) eqn:Hfive.
      * split; [|done]. intros _. left. intros [|j] Hj; [done|lia].
      * rewrite IH by lia. split.
        -- intros [H|[i H]].
           ++ left. intros [|j] Hj; [done|]. simpl. apply H. lia.
           ++ right. exists (S i). intros j Hj. simpl. by apply H.
        -- intros [H|[[|i] H]].
           ++ left. intros j Hj. apply (H (S j)). lia.
           ++ left. intros j Hj. apply (H (S j)). lia.
           ++ right. exists i. intros j Hj. by apply (H j).
    + rewrite IH by lia. split.
      * intros [H|[i H]].
        -- right. exists 1%nat. intros j Hj. simpl. apply H. lia.
        -- right. exists (S i). intros j Hj. simpl. by apply H.
      * intros [H|[[|i] H]].
        -- specialize (H 0%nat ltac:(lia)). done.
        -- specialize (H 0%nat ltac:(lia)). done.
        -- right. exists i. intros j Hj. by apply (H j).
Qed.

Lemma lookup_fmap_zrange {A} (f : Z → A) (lo hi : Z) (k : nat) (y : A) :
  (f <$> zrange lo hi) !! k = Some y ↔
  lo + Z.of_nat k <= hi ∧ y = f (lo + Z.of_nat k).
Proof.
  unfold zrange. rewrite list_lookup_fmap, fmap_Some.
  setoid_rewrite lookup_seqZ. split.
  - intros (x & [-> Hk] & ->). split; [lia|done].
  - intros [Hk ->]. exists (lo + Z.of_nat k). split; [|done]. split; [done|lia].
Qed.

(** A scan over a whole range of in-grid cells finds five in a row exactly
    when five consecutive indices of the range all pass the test. *)
Lemma scanRun_zrange (f : Z → bool) (lo hi : Z) :
  scanRun 0 ((λ x, Some (f x)) <$> zrange lo hi) = true ↔
  ∃ x, lo <= x ∧ x + 4 <= hi ∧ ∀ j, 0 <= j < 5 → f (x + j) = true.
Proof.
  rewrite (list_fmap_compose f Some), scanRun_Some by lia. split.
  - intros H.
    assert (∃ i : nat, ∀ j : nat, (j < 5)%nat →
              (f <$> zrange lo hi) !! (i + j)%nat = Some true) as [i Hi].
    { destruct H as [H|H]; [|done]. exists 0%nat. intros j Hj. apply H. lia. }
    exists (lo + Z.of_nat i). split_and!.
    + lia.
    + specialize (Hi 4%nat). apply lookup_fmap_zrange in Hi; lia.
    + intros j Hj. specialize (Hi (Z.to_nat j)).
      apply lookup_fmap_zrange in Hi as [_ Hi]; [|lia].
      rewrite Hi. f_equal. lia.
  - intros (x & Hlo & Hhi & Hx). right. exists (Z.to_nat (x - lo)).
    intros j Hj. apply lookup_fmap_zrange. split; [lia|].
    rewrite <- (Hx (Z.of_nat j)) by lia. f_equal. lia.
Qed.

Lemma zrange_split (a b c : Z) :
  a <= b → b <= c + 1 → zrange a c = zrange a (b - 1) ++ zrange b c.
Proof.
  intros Hab Hbc. unfold zrange.
  replace (c - a + 1) with ((b - 1 - a + 1) + (c - b + 1)) by lia.
  rewrite seqZ_app by lia. do 2 f_equal. lia.
Qed.

Lemma scanRun_skip_l (count : Z) (l : list Z) (rest : list (option bool)) :
  scanRun count (((λ _, None) <$> l) ++ rest) = scanRun count rest.
Proof. induction l as [|x l IH]; [done|]. simpl. apply IH. Qed.

Lemma scanRun_skip_r (count : Z) (l : list Z) (front : list (option bool)) :
  scanRun count (front ++ ((λ _, None) <$> l)) = scanRun count front.
Proof.
  revert count. induction front as [|[[]|] front IH]; intros count; simpl.
  - rewrite <- (app_nil_r (_ <$> l)). apply scanRun_skip_l.
  - by rewrite IH.
  - apply IH.
  - apply IH.
Qed.

(** The diagonal loops visit all nine offsets and skip those that fall off
    the grid; these lie before [lo] and after [hi], so the scan is the one of
    the clipped range. *)
Lemma scanRun_clip (g : Z → option bool) (f : Z → bool) (a c lo hi count : Z) :
  a <= lo → lo <= hi + 1 → hi <= c →
  (∀ i, a <= i < lo → g i = None) →
  (∀ i, hi < i <= c → g i = None) →
  (∀ i, lo <= i <= hi → g i = Some (f i)) →
  scanRun count (g <$> zrange a c)
  = scanRun count ((λ x, Some (f x)) <$> zrange lo hi).
Proof.
  intros Ha Hlh Hc Hlow Hhigh Hmid.
  rewrite (zrange_split a lo c), (zrange_split lo (hi + 1) c) by lia.
  replace (hi + 1 - 1) with hi by lia.
  rewrite !fmap_app.
  rewrite (Forall_fmap_ext_1 g (λ _, None) (zrange a (lo - 1))).
  2:{ apply Forall_forall. intros i Hi%elem_of_zrange. apply Hlow. lia. }
  rewrite (Forall_fmap_ext_1 g (λ _, None) (zrange (hi + 1) c)).
  2:{ apply Forall_forall. intros i Hi%elem_of_zrange. apply Hhigh. lia. }
  rewrite (Forall_fmap_ext_1 g (λ x, Some (f x)) (zrange lo hi)).
  2:{ apply Forall_forall. intros i Hi%elem_of_zrange. apply Hmid. lia. }
  by rewrite scanRun_skip_l, scanRun_skip_r.
Qed.
Lemma scan_row_spec (b : Board) (row col player : Z) :
  0 <= col < BOARD_SIZE →
  0 <= row < BOARD_SIZE →
  scanRun 0 ((λ c, Some (cell b row c =? player)) <$>
             zrange (Z.max 0 (col - 4)) (Z.min (BOARD_SIZE - 1) (col + 4))) = true
  ↔ run_of_five b row col player 0 1.
Proof.
  unfold run_of_five, BOARD_SIZE. intros Hc Hr.
  rewrite (scanRun_zrange (λ c, cell b row c =? player)). split.
  - intros (x & Hlo & Hhi & Hx). exists (x - col). split; [lia|].
    intros j Hj.
    replace (row + (x - col + j) * 0) with row by lia.
    replace (col + (x - col + j) * 1) with (x + j) by lia.
    split; [lia|]. apply Z.eqb_eq, Hx. lia.
  - intros (s & Hs & H). exists (col + s).
    pose proof (H 0 ltac:(lia)) as [H0 _]. pose proof (H 4 ltac:(lia)) as [H4 _].
    split_and!; [lia|lia|].
    intros j Hj. destruct (H j Hj) as [_ Hcell]. apply Z.eqb_eq.
    rewrite <- Hcell. f_equal; lia.
Qed.

Lemma scan_column_spec (b : Board) (row col player : Z) :
  0 <= col < BOARD_SIZE →
  0 <= row < BOARD_SIZE →
  scanRun 0 ((λ r, Some (cell b r col =? player)) <$>
             zrange (Z.max 0 (row - 4)) (Z.min (BOARD_SIZE - 1) (row + 4))) = true
  ↔ run_of_five b row col player 1 0.
Proof.
  unfold run_of_five, BOARD_SIZE. intros Hc Hr.
  rewrite (scanRun_zrange (λ r, cell b r col =? player)). split.
  - intros (x & Hlo & Hhi & Hx). exists (x - row). split; [lia|].
    intros j Hj.
    replace (col + (x - row + j) * 0) with col by lia.
    replace (row + (x - row + j) * 1) with (x + j) by lia.
    split; [lia|]. apply Z.eqb_eq, Hx. lia.
  - intros (s & Hs & H). exists (row + s).
    pose proof (H 0 ltac:(lia)) as [H0 _]. pose proof (H 4 ltac:(lia)) as [H4 _].
    split_and!; [lia|lia|].
    intros j Hj. destruct (H j Hj) as [_ Hcell]. apply Z.eqb_eq.
    rewrite <- Hcell. f_equal; lia.
Qed.

Lemma isValidPosition_false (r c : Z) :
  ¬ (0 <= r < BOARD_SIZE ∧ 0 <= c < BOARD_SIZE) → isValidPosition r c = false.
Proof.
  intros H. apply not_true_iff_false. by rewrite isValidPosition_spec.
Qed.

Lemma scan_diagonal_spec (b : Board) (row col player : Z) :
  0 <= col < BOARD_SIZE →
  0 <= row < BOARD_SIZE →
  scanRun 0 ((λ i, let r := row + i in let c := col + i in
                   if isValidPosition r c
                   then Some (cell b r c =? player) else None) <$>
             zrange (-4) 4) = true
  ↔ run_of_five b row col player 1 1.
Proof.
  intros Hc Hr. cbv zeta.
  rewrite (scanRun_clip _ (λ i, cell b (row + i) (col + i) =? player) (-4) 4
             (Z.max (-4) (Z.max (- row) (- col)))
             (Z.min 4 (Z.min (BOARD_SIZE - 1 - row) (BOARD_SIZE - 1 - col)))).
  2-4: unfold BOARD_SIZE in *; lia.
  2-3: intros i Hi; rewrite isValidPosition_false;
       [done|unfold BOARD_SIZE in *; lia].
  2:{ intros i Hi. rewrite (proj2 (isValidPosition_spec _ _)); [done|].
      unfold BOARD_SIZE in *. lia. }
  rewrite scanRun_zrange. unfold run_of_five, BOARD_SIZE in *. split.
  - intros (x & Hlo & Hhi & Hx). exists x. split; [lia|].
    intros j Hj.
    replace (row + (x + j) * 1) with (row + (x + j)) by lia.
    replace (col + (x + j) * 1) with (col + (x + j)) by lia.
    split; [lia|]. apply Z.eqb_eq, Hx. lia.
  - intros (s & Hs & H). exists s.
    pose proof (H 0 ltac:(lia)) as [H0 _]. pose proof (H 4 ltac:(lia)) as [H4 _].
    split_and!; [lia|lia|].
    intros j Hj. destruct (H j Hj) as [_ Hcell]. apply Z.eqb_eq.
    rewrite <- Hcell. f_equal; lia.
Qed.

Lemma scan_antidiagonal_spec (b : Board) (row col player : Z) :
  0 <= col < BOARD_SIZE →
  0 <= row < BOARD_SIZE →
  scanRun 0 ((λ i, let r := row + i in let c := col - i in
                   if isValidPosition r c
                   then Some (cell b r c =? player) else None) <$>
             zrange (-4) 4) = true
  ↔ run_of_five b row col player 1 (-1).
Proof.
  intros Hc Hr. cbv zeta.
  rewrite (scanRun_clip _ (λ i, cell b (row + i) (col - i) =? player) (-4) 4
             (Z.max (-4) (Z.max (- row) (col - (BOARD_SIZE - 1))))
             (Z.min 4 (Z.min (BOARD_SIZE - 1 - row) col))).
  2-4: unfold BOARD_SIZE in *; lia.
  2-3: intros i Hi; rewrite isValidPosition_false;
       [done|unfold BOARD_SIZE in *; lia].
  2:{ intros i Hi. rewrite (proj2 (isValidPosition_spec _ _)); [done|].
      unfold BOARD_SIZE in *. lia. }
  rewrite scanRun_zrange. unfold run_of_five, BOARD_SIZE in *. split.
  - intros (x & Hlo & Hhi & Hx). exists x. split; [lia|].
    intros j Hj.
    replace (row + (x + j) * 1) with (row + (x + j)) by lia.
    replace (col + (x + j) * -1) with (col - (x + j)) by lia.
    split; [lia|]. apply Z.eqb_eq, Hx. lia.
  - intros (s & Hs & H). exists s.
    pose proof (H 0 ltac:(lia)) as [H0 _]. pose proof (H 4 ltac:(lia)) as [H4 _].
    split_and!; [lia|lia|].
    intros j Hj. destruct (H j Hj) as [_ Hcell]. apply Z.eqb_eq.
    rewrite <- Hcell. f_equal; lia.
Qed.

(** C2. At a cell of the grid, [checkWin] answers true exactly when, along
    the row, the column or one of the two diagonals through [(row, col)], the
    cells of the grid at most 4 steps away hold five consecutive cells equal
    to [player] (a longer run contains such five). *)
Theorem checkWin_spec (b : Board) (row col player : Z) :
  0 <= row < BOARD_SIZE →
  0 <= col < BOARD_SIZE →
  checkWin b row col player = true ↔
  run_of_five b row col player 0 1 ∨
  run_of_five b row col player 1 0 ∨
  run_of_five b row col player 1 1 ∨
  run_of_five b row col player 1 (-1).
Proof.
  intros Hr Hc. unfold checkWin.
  rewrite !orb_true_iff, scan_row_spec, scan_column_spec, scan_diagonal_spec,
    scan_antidiagonal_spec by done.
  tauto.
Qed.

Lemma checkWin_spec_witness :
  0 <= 7 < BOARD_SIZE ∧ 0 <= 5 < BOARD_SIZE ∧
  (run_of_five fiveInRow 7 5 PLAYER 0 1 ∨
   run_of_five fiveInRow 7 5 PLAYER 1 0 ∨
   run_of_five fiveInRow 7 5 PLAYER 1 1 ∨
   run_of_five fiveInRow 7 5 PLAYER 1 (-1)).
Proof.
  assert (Hr : 0 <= 7 < BOARD_SIZE) by (unfold BOARD_SIZE; lia).
  assert (Hc : 0 <= 5 < BOARD_SIZE) by (unfold BOARD_SIZE; lia).
  split; [exact Hr|]. split; [exact Hc|].
  apply (proj1 (checkWin_spec fiveInRow 7 5 PLAYER Hr Hc)).
  reflexivity.
Defined.

(** ** Evaluator *)

Lemma sumZ_app (l1 l2 : list Z) : sumZ (l1 ++ l2) = sumZ l1 + sumZ l2.
Proof. induction l1 as [|x l1 IH]; simpl; [done|]. rewrite IH. lia. Qed.

Lemma sumZ_Permutation (l1 l2 : list Z) : l1 ≡ₚ l2 → sumZ l1 = sumZ l2.
Proof. induction 1; simpl; lia. Qed.

Lemma sumZ_bounds (m : Z) (l : list Z) :
  Forall (λ x, - m <= x <= m) l →
  - (m * Z.of_nat (length l)) <= sumZ l <= m * Z.of_nat (length l).
Proof. induction 1 as [|x l Hx Hl IH]; simpl; lia. Qed.

Lemma countSequence_counts (b : Board) (at_ : Z → Z * Z) :
  countSequence b at_ =
  (Z.of_nat (length (List.filter (λ p, cell b p.1 p.2 =? AI) (at_ <$> zrange 0 4))),
   Z.of_nat (length (List.filter (λ p, cell b p.1 p.2 =? PLAYER) (at_ <$> zrange 0 4)))).
Proof.
  unfold countSequence.
  assert (H : ∀ l a p,
    fold_left (λ '(aiCount, playerCount) i,
        let '(r, c) := at_ i in
        if cell b r c =? AI then (aiCount + 1, playerCount)
        else if cell b r c =? PLAYER then (aiCount, playerCount + 1)
        else (aiCount, playerCount)) l (a, p) =
    (a + Z.of_nat (length (List.filter (λ p, cell b p.1 p.2 =? AI) (at_ <$> l))),
     p + Z.of_nat (length (List.filter (λ p, cell b p.1 p.2 =? PLAYER) (at_ <$> l))))).
  { induction l as [|i l IH]; intros a p.
    - simpl. f_equal; lia.
    - rewrite fmap_cons. cbn [fold_left List.filter].
      destruct (at_ i) as [r c] eqn:Hat. cbn [fst snd].
      destruct (cell b r c =? AI) eqn:Hai.
      + apply Z.eqb_eq in Hai.
        replace (cell b r c =? PLAYER) with false
          by (symmetry; apply Z.eqb_neq; unfold AI, PLAYER in *; lia).
        rewrite IH. cbn [length]. f_equal; lia.
      + destruct (cell b r c =? PLAYER); rewrite IH; cbn [length];
          f_equal; lia. }
  apply H.
Qed.

Lemma evaluateSequence_window_score (aiCount playerCount : Z) :
  evaluateSequence aiCount playerCount = window_score aiCount playerCount.
Proof.
  unfold evaluateSequence, window_score, tier.
  destruct (0 <? aiCount), (0 <? playerCount); simpl; try done.
  - destruct (aiCount =? 5) eqn:H5, (aiCount =? 4) eqn:H4,
      (aiCount =? 3) eqn:H3, (aiCount =? 2) eqn:H2, (aiCount =? 1) eqn:H1;
      try done; lia.
  - destruct (playerCount =? 5) eqn:H5, (playerCount =? 4) eqn:H4,
      (playerCount =? 3) eqn:H3, (playerCount =? 2) eqn:H2,
      (playerCount =? 1) eqn:H1; try done; lia.
Qed.

Lemma window_score_bounds (ai opp : Z) :
  - 100000 <= window_score ai opp <= 100000.
Proof.
  unfold window_score, tier.
  destruct (0 <? ai), (0 <? opp); simpl; try lia.
  - destruct (ai =? 1), (ai =? 2), (ai =? 3), (ai =? 4), (ai =? 5); lia.
  - destruct (opp =? 1), (opp =? 2), (opp =? 3), (opp =? 4), (opp =? 5); lia.
Qed.

Lemma sequenceScore_window (b : Board) (at_ : Z → Z * Z) (w : Window) :
  (∀ i, at_ i = (w.1.1 + i * w.2.1, w.1.2 + i * w.2.2)) →
  sequenceScore b at_ = window_score (stones b AI w) (stones b PLAYER w).
Proof.
  intros Hat. unfold sequenceScore. rewrite countSequence_counts.
  rewrite evaluateSequence_window_score. unfold stones, window_cells.
  destruct w as [[r c] [dr dc]]. simpl in Hat.
  by rewrite (Forall_fmap_ext_1 at_ (λ i, (r + i * dr, c + i * dc)))
    by (apply Forall_forall; intros; apply Hat).
Qed.

Lemma inner_loop_sum (b : Board) (inner : list Z)
    (at2 : Z → Z → Z * Z) (score : Z) :
  fold_left (λ score y,
      let '(aiCount, playerCount) := countSequence b (at2 y) in
      score + evaluateSequence aiCount playerCount) inner score =
  score + sumZ ((λ y, sequenceScore b (at2 y)) <$> inner).
Proof.
  revert score. induction inner as [|y inner IH]; intros score.
  - simpl. lia.
  - rewrite fmap_cons. cbn [fold_left sumZ foldr]. rewrite IH.
    fold (sumZ ((λ y, sequenceScore b (at2 y)) <$> inner)).
    unfold sequenceScore at 2.
    destruct (countSequence b (at2 y)). lia.
Qed.

Lemma scoreLoops_sum (b : Board) (outer inner : list Z)
    (at_ : Z → Z → Z → Z * Z) (score : Z) :
  scoreLoops b outer inner at_ score =
  score + sumZ ((λ p, sequenceScore b (at_ p.1 p.2)) <$> loopPairs outer inner).
Proof.
  unfold scoreLoops, loopPairs. revert score.
  induction outer as [|x outer IH]; intros score.
  - simpl. lia.
  - cbn [fold_left flat_map]. rewrite IH, fmap_app, sumZ_app.
    rewrite inner_loop_sum, <- list_fmap_compose.
    unfold compose. cbn [fst snd]. lia.
Qed.

Lemma NoDup_visited_windows : NoDup visited_windows.
Proof. apply (bool_decide_unpack (NoDup visited_windows)). vm_compute. exact I. Qed.

Lemma NoDup_all_windows : NoDup all_windows.
Proof. apply (bool_decide_unpack (NoDup all_windows)). vm_compute. exact I. Qed.

(** The loops visit every window that fits on the board once, the column
    windows in another order than a row-major enumeration. *)
Lemma visited_windows_all : visited_windows ≡ₚ all_windows.
Proof.
  apply NoDup_Permutation.
  - apply NoDup_visited_windows.
  - apply NoDup_all_windows.
  - assert (H1 : Forall (λ w, w ∈ all_windows) visited_windows).
    { apply (bool_decide_unpack (Forall (λ w, w ∈ all_windows) visited_windows)).
      vm_compute. exact I. }
    assert (H2 : Forall (λ w, w ∈ visited_windows) all_windows).
    { apply (bool_decide_unpack (Forall (λ w, w ∈ visited_windows) all_windows)).
      vm_compute. exact I. }
    rewrite Forall_forall in H1, H2. intros w. split; [apply H1|apply H2].
Qed.

Lemma loop_windows (b : Board) (at_ : Z → Z → Z → Z * Z)
    (mk : Z * Z → Window) (pairs : list (Z * Z)) :
  (∀ p i, at_ p.1 p.2 i = ((mk p).1.1 + i * (mk p).2.1, (mk p).1.2 + i * (mk p).2.2)) →
  (λ p, sequenceScore b (at_ p.1 p.2)) <$> pairs =
  (λ w, window_score (stones b AI w) (stones b PLAYER w)) <$> (mk <$> pairs).
Proof.
  intros H. rewrite <- list_fmap_compose. apply list_fmap_ext.
  intros _ p _. simpl. apply sequenceScore_window, H.
Qed.

Lemma sequenceScore_bounds (b : Board) (at_ : Z → Z * Z) :
  - 100000 <= sequenceScore b at_ <= 100000.
Proof.
  unfold sequenceScore. destruct (countSequence b at_) as [ai opp].
  rewrite evaluateSequence_window_score. apply window_score_bounds.
Qed.

Lemma loop_sum_bounds (b : Board) (at_ : Z → Z → Z → Z * Z) (pairs : list (Z * Z)) :
  - (100000 * Z.of_nat (length pairs))
  <= sumZ ((λ p, sequenceScore b (at_ p.1 p.2)) <$> pairs)
  <= 100000 * Z.of_nat (length pairs).
Proof.
  pose proof (sumZ_bounds 100000
    ((λ p, sequenceScore b (at_ p.1 p.2)) <$> pairs)) as H.
  rewrite length_fmap in H. apply H.
  apply Forall_fmap, Forall_forall. intros p _. apply sequenceScore_bounds.
Qed.

(** The score stays well inside the range of [int]: 572 windows of at most
    100000 each, so no addition of [evaluateBoard] can overflow. *)
Lemma evaluateBoard_bounds (b : Board) :
  - 57200000 <= evaluateBoard b <= 57200000.
Proof.
  unfold evaluateBoard. rewrite !scoreLoops_sum.
  pose proof (loop_sum_bounds b (λ row col i, (row, col + i))
    (loopPairs (zrange 0 (BOARD_SIZE - 1)) (zrange 0 (BOARD_SIZE - 4 - 1)))) as H1.
  pose proof (loop_sum_bounds b (λ col row i, (row + i, col))
    (loopPairs (zrange 0 (BOARD_SIZE - 1)) (zrange 0 (BOARD_SIZE - 4 - 1)))) as H2.
  pose proof (loop_sum_bounds b (λ row col i, (row + i, col + i))
    (loopPairs (zrange 0 (BOARD_SIZE - 4 - 1)) (zrange 0 (BOARD_SIZE - 4 - 1)))) as H3.
  pose proof (loop_sum_bounds b (λ row col i, (row + i, col - i))
    (loopPairs (zrange 0 (BOARD_SIZE - 4 - 1)) (zrange 4 (BOARD_SIZE - 1)))) as H4.
  replace (length (loopPairs (zrange 0 (BOARD_SIZE - 1)) (zrange 0 (BOARD_SIZE - 4 - 1))))
    with 165%nat in H1, H2 by (by vm_compute).
  replace (length (loopPairs (zrange 0 (BOARD_SIZE - 4 - 1)) (zrange 0 (BOARD_SIZE - 4 - 1))))
    with 121%nat in H3 by (by vm_compute).
  replace (length (loopPairs (zrange 0 (BOARD_SIZE - 4 - 1)) (zrange 4 (BOARD_SIZE - 1))))
    with 121%nat in H4 by (by vm_compute).
  lia.
Qed.

(** C3. [evaluateBoard] is the sum, over every window of five consecutive
    cells that fits on the board along a row, a column or one of the two
    diagonals, of the window's score: 0 when the window holds stones of both
    players or of neither, 10, 100, 1000, 10000, 100000 for 1 to 5 stones of
    the automated player alone, and the same values negated for the opponent
    alone. *)
Theorem evaluateBoard_spec (b : Board) : evaluateBoard b = score_spec b.
Proof.
  unfold evaluateBoard, score_spec.
  rewrite <- (sumZ_Permutation _ _ (fmap_Permutation _ _ _ visited_windows_all)).
  unfold visited_windows.
  rewrite !fmap_app, !sumZ_app, !scoreLoops_sum.
  rewrite (loop_windows b (λ row col i, (row, col + i)) (λ p, ((p.1, p.2), (0, 1))))
    by (intros; simpl; f_equal; lia).
  rewrite (loop_windows b (λ col row i, (row + i, col)) (λ p, ((p.2, p.1), (1, 0))))
    by (intros; simpl; f_equal; lia).
  rewrite (loop_windows b (λ row col i, (row + i, col + i)) (λ p, ((p.1, p.2), (1, 1))))
    by (intros; simpl; f_equal; lia).
  rewrite (loop_windows b (λ row col i, (row + i, col - i)) (λ p, ((p.1, p.2), (1, -1))))
    by (intros; simpl; f_equal; lia).
  lia.
Qed.

(** ** Alpha-beta pruning against exhaustive minimax *)

Lemma fold_max_ge (f : Z * Z → Z) (moves : list (Z * Z)) (acc : Z) :
  acc <= fold_left (λ maxEval p, Z.max maxEval (f p)) moves acc.
Proof.
  revert acc. induction moves as [|p moves IH]; intros acc; simpl; [lia|].
  specialize (IH (Z.max acc (f p))). lia.
Qed.

Lemma fold_min_le (f : Z * Z → Z) (moves : list (Z * Z)) (acc : Z) :
  fold_left (λ minEval p, Z.min minEval (f p)) moves acc <= acc.
Proof.
  revert acc. induction moves as [|p moves IH]; intros acc; simpl; [lia|].
  specialize (IH (Z.min acc (f p))). lia.
Qed.

Section Loops.
Variable st : Engine.
Variable search : Z → Z → Engine → Z * Engine.
Variable exact : Board → Z.
Hypothesis search_frame : ∀ a b s, snd (search a b s) = s.
Hypothesis search_fail_soft : ∀ a b bd,
  INT_MIN <= a → a < b → b <= INT_MAX →
  fail_soft a b (fst (search a b (with_board st bd))) (exact bd).

Lemma maxLoop_fail_soft (alpha0 beta : Z) (moves : list (Z * Z))
    (alpha maxEval seen : Z) :
  (∀ r c, In (r, c) moves → cell (board st) r c = EMPTY) →
  INT_MIN <= alpha0 → alpha0 < beta → beta <= INT_MAX →
  alpha = Z.max alpha0 maxEval → maxEval < beta →
  (maxEval <= alpha0 → seen <= maxEval) →
  (alpha0 < maxEval → maxEval = seen) →
  fail_soft alpha0 beta
    (fst (maxLoop search moves alpha beta maxEval st))
    (fold_left (λ maxEval p, Z.max maxEval (exact (setCell (board st) p.1 p.2 AI)))
       moves seen).
Proof.
  intros Hm Hmin Hwin Hmax. revert alpha maxEval seen.
  induction moves as [|[r c] rest IH]; intros alpha maxEval seen Ha Hlt Hlow Hhigh.
  - simpl. unfold fail_soft. lia.
  - cbn [maxLoop fold_left fst snd].
    pose proof (search_frame alpha beta
                  (with_board st (setCell (board st) r c AI))) as Hs.
    pose proof (search_fail_soft alpha beta (setCell (board st) r c AI)
                  ltac:(lia) ltac:(lia) ltac:(lia)) as Hfs.
    destruct (search alpha beta _) as [eval st2]. cbn [fst snd] in Hs, Hfs.
    subst st2. rewrite try_move_restores by (apply Hm; by left).
    set (m := exact (setCell (board st) r c AI)) in *.
    unfold fail_soft in Hfs.
    destruct (beta <=? Z.max alpha eval) eqn:Hcut.
    + apply Z.leb_le in Hcut. cbn [fst].
      pose proof (fold_max_ge (λ p, exact (setCell (board st) p.1 p.2 AI))
                    rest (Z.max seen m)) as Hge.
      cbv beta in Hge. unfold fail_soft. lia.
    + apply Z.leb_gt in Hcut.
      apply IH; [intros; apply Hm; by right|lia..].
Qed.

Lemma minLoop_fail_soft (alpha beta0 : Z) (moves : list (Z * Z))
    (beta minEval seen : Z) :
  (∀ r c, In (r, c) moves → cell (board st) r c = EMPTY) →
  INT_MIN <= alpha → alpha < beta0 → beta0 <= INT_MAX →
  beta = Z.min beta0 minEval → alpha < minEval →
  (beta0 <= minEval → minEval <= seen) →
  (minEval < beta0 → minEval = seen) →
  fail_soft alpha beta0
    (fst (minLoop search moves alpha beta minEval st))
    (fold_left (λ minEval p, Z.min minEval (exact (setCell (board st) p.1 p.2 PLAYER)))
       moves seen).
Proof.
  intros Hm Hmin Hwin Hmax. revert beta minEval seen.
  induction moves as [|[r c] rest IH]; intros beta minEval seen Hb Hlt Hhigh Hlow.
  - simpl. unfold fail_soft. lia.
  - cbn [minLoop fold_left fst snd].
    pose proof (search_frame alpha beta
                  (with_board st (setCell (board st) r c PLAYER))) as Hs.
    pose proof (search_fail_soft alpha beta (setCell (board st) r c PLAYER)
                  ltac:(lia) ltac:(lia) ltac:(lia)) as Hfs.
    destruct (search alpha beta _) as [eval st2]. cbn [fst snd] in Hs, Hfs.
    subst st2. rewrite try_move_restores by (apply Hm; by left).
    set (m := exact (setCell (board st) r c PLAYER)) in *.
    unfold fail_soft in Hfs.
    destruct (Z.min beta eval <=? alpha) eqn:Hcut.
    + apply Z.leb_le in Hcut. cbn [fst].
      pose proof (fold_min_le (λ p, exact (setCell (board st) p.1 p.2 PLAYER))
                    rest (Z.min seen m)) as Hle.
      cbv beta in Hle. unfold fail_soft. lia.
    + apply Z.leb_gt in Hcut.
      apply IH; [intros; apply Hm; by right|lia..].
Qed.
End Loops.
Lemma fail_soft_refl (alpha beta v : Z) : fail_soft alpha beta v v.
Proof. unfold fail_soft. lia. Qed.

Lemma alphaBetaPruning_fail_soft (depth : nat) (maximizingPlayer : bool)
    (st : Engine) (alpha beta : Z) :
  INT_MIN <= alpha → alpha < beta → beta <= INT_MAX →
  fail_soft alpha beta
    (fst (alphaBetaPruning depth alpha beta maximizingPlayer st))
    (minimax depth maximizingPlayer (gameOver st) (board st)).
Proof.
  revert maximizingPlayer st alpha beta.
  induction depth as [|depth IH]; intros mx st alpha beta Hmin Hwin Hmax.
  - apply fail_soft_refl.
  - cbn [alphaBetaPruning minimax].
    destruct (gameOver st) eqn:Hover; [apply fail_soft_refl|].
    destruct mx.
    + apply (maxLoop_fail_soft st (λ a b s, alphaBetaPruning depth a b false s)
               (minimax depth false false)); try done; try lia.
      * intros. apply alphaBetaPruning_frame.
      * intros a b bd Ha Hab Hb.
        specialize (IH false (with_board st bd) a b Ha Hab Hb).
        cbn [with_board gameOver board] in IH. by rewrite Hover in IH.
      * apply generateMoves_EMPTY.
    + apply (minLoop_fail_soft st (λ a b s, alphaBetaPruning depth a b true s)
               (minimax depth true false)); try done; try lia.
      * intros. apply alphaBetaPruning_frame.
      * intros a b bd Ha Hab Hb.
        specialize (IH true (with_board st bd) a b Ha Hab Hb).
        cbn [with_board gameOver board] in IH. by rewrite Hover in IH.
      * apply generateMoves_EMPTY.
Qed.

Lemma evaluateBoard_int (b : Board) : INT_MIN <= evaluateBoard b <= INT_MAX.
Proof. pose proof (evaluateBoard_bounds b). unfold INT_MIN, INT_MAX. lia. Qed.

Lemma fold_max_int (f : Z * Z → Z) (moves : list (Z * Z)) (acc : Z) :
  (∀ p, INT_MIN <= f p <= INT_MAX) → INT_MIN <= acc <= INT_MAX →
  INT_MIN <= fold_left (λ maxEval p, Z.max maxEval (f p)) moves acc <= INT_MAX.
Proof.
  intros Hf. revert acc.
  induction moves as [|p moves IH]; intros acc Hacc; simpl; [done|].
  apply IH. specialize (Hf p). lia.
Qed.

Lemma fold_min_int (f : Z * Z → Z) (moves : list (Z * Z)) (acc : Z) :
  (∀ p, INT_MIN <= f p <= INT_MAX) → INT_MIN <= acc <= INT_MAX →
  INT_MIN <= fold_left (λ minEval p, Z.min minEval (f p)) moves acc <= INT_MAX.
Proof.
  intros Hf. revert acc.
  induction moves as [|p moves IH]; intros acc Hacc; simpl; [done|].
  apply IH. specialize (Hf p). lia.
Qed.

Lemma minimax_int (depth : nat) (maximizingPlayer over : bool) (b : Board) :
  INT_MIN <= minimax depth maximizingPlayer over b <= INT_MAX.
Proof.
  revert maximizingPlayer b.
  induction depth as [|depth IH]; intros mx b; [apply evaluateBoard_int|].
  cbn [minimax]. destruct over; [apply evaluateBoard_int|].
  destruct mx.
  - apply (fold_max_int (λ p, minimax depth false false (setCell b p.1 p.2 AI)));
      [intros; apply IH|unfold INT_MIN, INT_MAX; lia].
  - apply (fold_min_int (λ p, minimax depth true false (setCell b p.1 p.2 PLAYER)));
      [intros; apply IH|unfold INT_MIN, INT_MAX; lia].
Qed.

Section LoopBounds.
Variable search : Z → Z → Engine → Z * Engine.
Hypothesis search_int : ∀ a b s, INT_MIN <= fst (search a b s) <= INT_MAX.

Lemma maxLoop_int (moves : list (Z * Z)) (alpha beta maxEval : Z) (st : Engine) :
  INT_MIN <= maxEval <= INT_MAX →
  INT_MIN <= fst (maxLoop search moves alpha beta maxEval st) <= INT_MAX.
Proof.
  revert alpha maxEval st.
  induction moves as [|[r c] rest IH]; intros alpha maxEval st Hme; [done|].
  cbn [maxLoop].
  pose proof (search_int alpha beta (with_board st (setCell (board st) r c AI))) as Hs.
  destruct (search alpha beta _) as [eval st2]. cbn [fst] in Hs.
  destruct (beta <=? Z.max alpha eval); [cbn [fst]; lia|].
  apply IH. lia.
Qed.

Lemma minLoop_int (moves : list (Z * Z)) (alpha beta minEval : Z) (st : Engine) :
  INT_MIN <= minEval <= INT_MAX →
  INT_MIN <= fst (minLoop search moves alpha beta minEval st) <= INT_MAX.
Proof.
  revert beta minEval st.
  induction moves as [|[r c] rest IH]; intros beta minEval st Hme; [done|].
  cbn [minLoop].
  pose proof (search_int alpha beta (with_board st (setCell (board st) r c PLAYER))) as Hs.
  destruct (search alpha beta _) as [eval st2]. cbn [fst] in Hs.
  destruct (Z.min beta eval <=? alpha); [cbn [fst]; lia|].
  apply IH. lia.
Qed.
End LoopBounds.

Lemma alphaBetaPruning_int (depth : nat) (alpha beta : Z)
    (maximizingPlayer : bool) (st : Engine) :
  INT_MIN <= fst (alphaBetaPruning depth alpha beta maximizingPlayer st) <= INT_MAX.
Proof.
  revert alpha beta maximizingPlayer st.
  induction depth as [|depth IH]; intros alpha beta mx st;
    [apply evaluateBoard_int|].
  cbn [alphaBetaPruning]. destruct (gameOver st); [apply evaluateBoard_int|].
  destruct mx.
  - apply maxLoop_int; [intros; apply IH|unfold INT_MIN, INT_MAX; lia].
  - apply minLoop_int; [intros; apply IH|unfold INT_MIN, INT_MAX; lia].
Qed.

(** With the full window the value of [alphaBetaPruning] is the minimax
    value. *)
Lemma alphaBetaPruning_exact (depth : nat) (maximizingPlayer : bool) (st : Engine) :
  fst (alphaBetaPruning depth INT_MIN INT_MAX maximizingPlayer st)
  = minimax depth maximizingPlayer (gameOver st) (board st).
Proof.
  pose proof (alphaBetaPruning_fail_soft depth maximizingPlayer st INT_MIN INT_MAX)
    as Hfs.
  pose proof (alphaBetaPruning_int depth INT_MIN INT_MAX maximizingPlayer st) as Hv.
  pose proof (minimax_int depth maximizingPlayer (gameOver st) (board st)) as Hm.
  unfold fail_soft in Hfs. unfold INT_MIN, INT_MAX in *. lia.
Qed.

Lemma bestLoop_minimax (depth : nat) (moves : list (Z * Z))
    (bestScore : Z) (bestMove : Z * Z) (st : Engine) :
  (∀ r c, In (r, c) moves → cell (board st) r c = EMPTY) →
  fst (bestLoop (alphaBetaPruning depth INT_MIN INT_MAX false) moves
         bestScore bestMove st)
  = snd (fold_left (λ best p,
             let score :=
               minimax depth false (gameOver st) (setCell (board st) p.1 p.2 AI) in
             if best.1 <? score then (score, p) else best)
           moves (bestScore, bestMove)).
Proof.
  revert bestScore bestMove.
  induction moves as [|[r c] rest IH]; intros bestScore bestMove Hm; [done|].
  cbn [bestLoop fold_left fst snd].
  pose proof (alphaBetaPruning_frame depth INT_MIN INT_MAX false
                (with_board st (setCell (board st) r c AI))) as Hs.
  pose proof (alphaBetaPruning_exact depth false
                (with_board st (setCell (board st) r c AI))) as Hv.
  destruct (alphaBetaPruning depth INT_MIN INT_MAX false _) as [score st2].
  cbn [fst snd with_board gameOver board] in Hs, Hv. subst st2 score.
  rewrite try_move_restores by (apply Hm; by left).
  destruct (bestScore <? _); apply IH; intros; apply Hm; by right.
Qed.

(** C5. [getBestMove] picks the cell that the same candidate loop picks when
    every candidate is scored by exhaustive minimax to the same depth, and
    [alphaBetaPruning] called with the full window [(INT_MIN, INT_MAX)]
    returns the minimax value of the position at that depth. *)
Theorem alphaBeta_agrees_with_minimax (st : Engine) :
  fst (getBestMove st) = bestMove_minimax st ∧
  ∀ depth maximizingPlayer,
    fst (alphaBetaPruning depth INT_MIN INT_MAX maximizingPlayer st)
    = minimax depth maximizingPlayer (gameOver st) (board st).
Proof.
  split; [|intros; apply alphaBetaPruning_exact].
  unfold getBestMove, bestMove_minimax.
  destruct (generateMoves (board st)) as [|p moves] eqn:Hg.
  - by destruct (cell _ _ _ =? EMPTY).
  - apply bestLoop_minimax. rewrite <- Hg. apply generateMoves_EMPTY.
Qed.

(** ** The opening move *)

(** C4. On the empty board with difficulty [EASY], [getBestMove] does not
    return the centre [(7, 7)]: [generateMoves] falls back to all 225 Empty
    cells, so the candidate list is never empty and the centre shortcut is
    not taken; the one-ply search then scores 0 for every cell whose windows
    are not clipped by an edge, and the first of them in scan order,
    [(4, 4)], is kept. *)
Theorem getBestMove_empty_board :
  generateMoves (board (setDifficulty EASY newEngine)) = allCells ∧
  fst (getBestMove (setDifficulty EASY newEngine)) = (4, 4) ∧
  fst (getBestMove (setDifficulty EASY newEngine)) ≠ (BOARD_SIZE / 2, BOARD_SIZE / 2).
Proof.
  assert (H : fst (getBestMove (setDifficulty EASY newEngine)) = (4, 4))
    by (vm_compute; reflexivity).
  split; [by vm_compute|]. split; [exact H|]. rewrite H. by vm_compute.
Qed.

(** * Further properties *)

(** ** Reset, difficulty and the read-only queries *)

Lemma cell_emptyBoard (r c : Z) : cell emptyBoard r c = EMPTY.
Proof.
  unfold cell, emptyBoard. destruct ((0 <=? r) && (0 <=? c)); [|done].
  destruct (replicate _ _ !! Z.to_nat r) as [line|] eqn:Hl; [simpl|done].
  apply lookup_replicate in Hl as [-> _].
  destruct (replicate _ _ !! Z.to_nat c) as [v|] eqn:Hv; [simpl|done].
  by apply lookup_replicate in Hv as [-> _].
Qed.

(** X1. After [reset_game], whatever the engine was before, every cell of
    the grid reads Empty and every other coordinate reads the sentinel -1,
    nothing can be undone, the game is undecided with no winner, and the
    difficulty is the one set before; a second reset changes nothing. *)
Theorem reset_game_observed (st : Engine) (row col : Z) :
  get_board_value (reset_game st) row col
  = (if isValidPosition row col then EMPTY else -1) ∧
  can_undo (reset_game st) = 0 ∧
  is_game_over (reset_game st) = 0 ∧
  get_winner (reset_game st) = EMPTY ∧
  get_difficulty (reset_game st) = get_difficulty st ∧
  wf_board (getBoard (reset_game st)) ∧
  reset_game (reset_game st) = reset_game st.
Proof.
  split_and!; try done.
  - unfold get_board_value, isValidPosition, reset_game, resetGame, getBoard.
    cbn [board]. rewrite cell_emptyBoard. done.
  - apply wf_emptyBoard.
Qed.

Lemma difficulty_code_depth (d : Difficulty) :
  Z.of_nat (difficulty_depth d) = difficulty_code d.
Proof. by destruct d. Qed.

(** X2. [set_difficulty] clamps any integer to one of the three levels and
    touches nothing else: [get_difficulty] afterwards gives 1 for levels at
    or below 1, 5 for levels at or above 5 and 3 in between, so it gives the
    level back exactly for 1, 3 and 5; it grows with the level; setting the
    level that [get_difficulty] reports leaves the engine as it is; and the
    reported level is the ply count the search uses. *)
Theorem set_difficulty_clamps (level level' : Z) (st : Engine) :
  get_difficulty (set_difficulty level st)
  = (if level <=? 1 then 1 else if 5 <=? level then 5 else 3) ∧
  (get_difficulty (set_difficulty level st) = level
   ↔ level = 1 ∨ level = 3 ∨ level = 5) ∧
  (level <= level' →
   get_difficulty (set_difficulty level st)
   <= get_difficulty (set_difficulty level' st)) ∧
  set_difficulty (get_difficulty st) st = st ∧
  Z.of_nat (difficulty_depth (difficulty (set_difficulty level st)))
  = get_difficulty (set_difficulty level st) ∧
  board (set_difficulty level st) = board st ∧
  moveHistory (set_difficulty level st) = moveHistory st ∧
  gameOver (set_difficulty level st) = gameOver st ∧
  winner (set_difficulty level st) = winner st.
Proof.
  unfold get_difficulty, set_difficulty, getDifficulty, setDifficulty.
  cbn [difficulty board moveHistory gameOver winner].
  split_and!; try done.
  - by destruct (level <=? 1), (5 <=? level).
  - destruct (level <=? 1) eqn:H1, (5 <=? level) eqn:H5; simpl; lia.
  - intros Hle.
    destruct (level <=? 1) eqn:H1, (5 <=? level) eqn:H5,
      (level' <=? 1) eqn:H1', (5 <=? level') eqn:H5'; simpl; lia.
  - destruct st as [b g w d h]. by destruct d.
  - apply difficulty_code_depth.
Qed.

Lemma makeMove_canUndo (row col player : Z) (st : Engine) :
  fst (makeMove row col player st) = true →
  canUndo (snd (makeMove row col player st)) = true.
Proof.
  destruct (rejected_dec row col st) as [Hrej|Hacc].
  - by rewrite (makeMove_rejected _ _ _ _ Hrej).
  - by rewrite (makeMove_accepted _ _ _ _ Hacc).
Qed.

Lemma make_move_unfold (row col player : Z) (st : Engine) :
  make_move row col player st =
  ((if fst (makeMove row col player st) then 1 else 0),
   snd (makeMove row col player st)).
Proof. unfold make_move. by destruct (makeMove row col player st). Qed.

Lemma undo_move_unfold (st : Engine) :
  undo_move st = ((if fst (undoMove st) then 1 else 0), snd (undoMove st)).
Proof. unfold undo_move. by destruct (undoMove st). Qed.

(** X3. [can_undo] answers 1 exactly when [undo_move] would succeed, that
    is when the history is not empty; a successful [undo_move] makes the
    history strictly shorter, and after an accepted [make_move] an undo is
    always possible. *)
Theorem can_undo_agrees (st : Engine) (row col player : Z) :
  can_undo st = fst (undo_move st) ∧
  (can_undo st = 1 ↔ moveHistory st ≠ []) ∧
  (fst (undo_move st) = 1 →
   (length (moveHistory (snd (undo_move st))) < length (moveHistory st))%nat) ∧
  (fst (make_move row col player st) = 1 →
   can_undo (snd (make_move row col player st)) = 1).
Proof.
  rewrite make_move_unfold, undo_move_unfold. unfold can_undo. cbn [fst snd].
  assert (Hmove : (if fst (makeMove row col player st) then 1 else 0) = 1 →
    (if canUndo (snd (makeMove row col player st)) then 1 else 0) = 1).
  { intros H. rewrite makeMove_canUndo; [done|].
    by destruct (fst (makeMove row col player st)). }
  unfold canUndo in *.
  destruct (decide (moveHistory st = [])) as [He|Hne].
  - rewrite (undoMove_empty _ He), He. cbn [fst snd].
    split; [done|]. split; [|split; [done|exact Hmove]].
    split; [done|]. intros H. by destruct H.
  - rewrite (undoMove_nonempty _ Hne). cbn [fst snd moveHistory].
    rewrite undoLoop_history, length_drop.
    destruct (moveHistory st) as [|m h] eqn:Hh; [done|].
    split; [done|]. split; [done|]. split; [|exact Hmove].
    intros _. simpl. lia.
Qed.

(** ** Moves and undo together *)

Lemma makeMove_true_accepted (row col player : Z) (st : Engine) :
  fst (makeMove row col player st) = true → ¬ rejected row col st.
Proof.
  intros H Hrej. by rewrite (makeMove_rejected _ _ _ _ Hrej) in H.
Qed.

Lemma accepted_facts (row col : Z) (st : Engine) :
  ¬ rejected row col st →
  isValidPosition row col = true ∧ cell (board st) row col = EMPTY ∧
  gameOver st = false.
Proof.
  intros Hacc. unfold rejected in Hacc. split_and!.
  - apply isValidPosition_spec.
    destruct (decide (0 <= row < BOARD_SIZE ∧ 0 <= col < BOARD_SIZE)); [done|].
    exfalso. apply Hacc. by left.
  - destruct (decide (cell (board st) row col = EMPTY)); [done|].
    exfalso. apply Hacc. right. by left.
  - destruct (gameOver st); [|done]. exfalso. apply Hacc. right. by right.
Qed.

(** X4. Two placements that are both accepted, followed by one [undoMove],
    give back the board and the history from before the two placements, in
    an undecided game and with the same difficulty; when the engine had no
    winner recorded before, it is the very same engine again. *)
Theorem undo_reverts_two_moves (r1 c1 p1 r2 c2 p2 : Z) (st : Engine) :
  let s1 := snd (makeMove r1 c1 p1 st) in
  let s2 := snd (makeMove r2 c2 p2 s1) in
  let s3 := snd (undoMove s2) in
  fst (makeMove r1 c1 p1 st) = true →
  fst (makeMove r2 c2 p2 s1) = true →
  fst (undoMove s2) = true ∧
  board s3 = board st ∧
  moveHistory s3 = moveHistory st ∧
  gameOver s3 = false ∧
  difficulty s3 = difficulty st ∧
  (winner st = EMPTY → s3 = st).
Proof.
  intros s1 s2 s3 H1 H2. subst s1 s2 s3.
  apply makeMove_true_accepted in H1 as Hacc1.
  revert H2. rewrite (makeMove_accepted _ _ _ _ Hacc1). cbn [snd]. intros H2.
  apply makeMove_true_accepted in H2 as Hacc2.
  rewrite (makeMove_accepted _ _ _ _ Hacc2). cbn [snd].
  destruct (accepted_facts _ _ _ Hacc1) as (_ & He1 & Hg).
  destruct (accepted_facts _ _ _ Hacc2) as (_ & He2 & Hg2).
  cbn [board gameOver winner difficulty moveHistory] in *.
  rewrite Hg2. rewrite undoMove_nonempty by done.
  cbn [fst snd board gameOver winner difficulty moveHistory undoLoop
       m_row m_col].
  rewrite (setCell_restore _ r2 c2 p2 He2), (setCell_restore _ r1 c1 p1 He1).
  do 5 (split; [done|]).
  intros Hw. destruct st as [b g w d h].
  cbn [board gameOver winner difficulty moveHistory] in *. subst g w.
  by destruct (checkWin _ r2 c2 p2).
Qed.

Lemma undo_reverts_two_moves_witness :
  fst (makeMove 7 7 PLAYER newEngine) = true ∧
  fst (makeMove 7 8 AI (snd (makeMove 7 7 PLAYER newEngine))) = true ∧
  snd (undoMove (snd (makeMove 7 8 AI (snd (makeMove 7 7 PLAYER newEngine)))))
  = newEngine.
Proof.
  assert (H1 : fst (makeMove 7 7 PLAYER newEngine) = true) by reflexivity.
  assert (H2 : fst (makeMove 7 8 AI (snd (makeMove 7 7 PLAYER newEngine))) = true)
    by reflexivity.
  split; [exact H1|]. split; [exact H2|].
  destruct (undo_reverts_two_moves 7 7 PLAYER 7 8 AI newEngine H1 H2)
    as (_ & _ & _ & _ & _ & H).
  apply H. reflexivity.
Defined.

(** ** The status flags *)

Lemma status_ok_step (st : Engine) (o : Op) : status_ok st → status_ok (step st o).
Proof.
  intros [Hund Hdec]. destruct o as [row col player| | | |level]; cbn [step].
  - destruct (rejected_dec row col st) as [Hrej|Hacc].
    + by rewrite (makeMove_rejected _ _ _ _ Hrej).
    + rewrite (makeMove_accepted _ _ _ _ Hacc). cbn [snd].
      destruct (accepted_facts _ _ _ Hacc) as (_ & _ & Hg).
      destruct (checkWin _ _ _ _) eqn:Hwin; split;
        cbn [gameOver winner moveHistory board]; try done.
      * intros _. eexists _, _. split; [done|]. split; [done|]. exact Hwin.
      * intros _. by apply Hund.
  - destruct (decide (moveHistory st = [])) as [He|Hne].
    + by rewrite (undoMove_empty _ He).
    + rewrite (undoMove_nonempty _ Hne). cbn [snd]. split;
        cbn [gameOver winner]; [|done].
      intros _. destruct (gameOver st) eqn:Hg; [done|by apply Hund].
  - by split.
  - by rewrite getBestMove_frame.
  - split; [exact Hund|exact Hdec].
Qed.

Lemma status_ok_run (ops : list Op) (st : Engine) :
  status_ok st → status_ok (run ops st).
Proof.
  revert st. induction ops as [|o ops IH]; intros st Hst; [done|].
  simpl. apply IH. by apply status_ok_step.
Qed.

(** X5. Whatever sequence of operations a caller applies to a new or a
    freshly reset engine, with any integers as arguments, an undecided game
    has winner 0, and a decided game has a most recent move, has the player
    of that move as its winner, and [checkWin] holds for that move on the
    current board. *)
Theorem status_flags_agree (ops : list Op) (st0 : Engine) :
  status_ok (run ops newEngine) ∧ status_ok (run ops (resetGame st0)).
Proof. split; apply status_ok_run; by split. Qed.

(** ** Five in a row anywhere on the board *)

Lemma checkWin_runs (b : Board) (row col player : Z) :
  isValidPosition row col = true →
  checkWin b row col player = true ↔
  run_of_five b row col player 0 1 ∨
  run_of_five b row col player 1 0 ∨
  run_of_five b row col player 1 1 ∨
  run_of_five b row col player 1 (-1).
Proof.
  intros [Hr Hc]%isValidPosition_spec. unfold checkWin.
  rewrite !orb_true_iff, scan_row_spec, scan_column_spec, scan_diagonal_spec,
    scan_antidiagonal_spec by done.
  tauto.
Qed.

Lemma run_of_five_has_five (b : Board) (row col player dr dc : Z) :
  In (dr, dc) directions →
  run_of_five b row col player dr dc →
  has_five b player ∧ cell b row col = player.
Proof.
  intros Hd (s & Hs & H). split.
  - exists (row + s * dr), (col + s * dc), dr, dc. split; [done|].
    intros j Hj. destruct (H j Hj) as [Hg Hcell].
    replace (row + s * dr + j * dr) with (row + (s + j) * dr) by lia.
    replace (col + s * dc + j * dc) with (col + (s + j) * dc) by lia.
    done.
  - destruct (H (- s) ltac:(lia)) as [_ Hcell].
    replace (row + (s + - s) * dr) with row in Hcell by lia.
    replace (col + (s + - s) * dc) with col in Hcell by lia.
    done.
Qed.

Lemma checkWin_has_five (b : Board) (row col player : Z) :
  isValidPosition row col = true →
  checkWin b row col player = true →
  has_five b player ∧ cell b row col = player.
Proof.
  intros Hv Hwin. apply checkWin_runs in Hwin; [|done].
  destruct Hwin as [H|[H|[H|H]]];
    (eapply run_of_five_has_five; [|exact H]); simpl; auto.
Qed.

(** Five cells in a row that avoid [(r, c)] are not affected by a write to
    [(r, c)]; five that go through it lie within 4 steps of it. *)
Lemma five_through_or_before (b : Board) (r c v player r0 c0 dr dc : Z) :
  (∀ j, 0 <= j < 5 →
     (0 <= r0 + j * dr < BOARD_SIZE ∧ 0 <= c0 + j * dc < BOARD_SIZE) ∧
     cell (setCell b r c v) (r0 + j * dr) (c0 + j * dc) = player) →
  run_of_five (setCell b r c v) r c player dr dc ∨
  (∀ j, 0 <= j < 5 →
     (0 <= r0 + j * dr < BOARD_SIZE ∧ 0 <= c0 + j * dc < BOARD_SIZE) ∧
     cell b (r0 + j * dr) (c0 + j * dc) = player).
Proof.
  intros H.
  assert (Hthrough : ∀ k, 0 <= k < 5 →
    (r0 + k * dr, c0 + k * dc) = (r, c) →
    run_of_five (setCell b r c v) r c player dr dc).
  { intros k Hk [= Hr Hc]. exists (- k). split; [lia|].
    intros j Hj. destruct (H j Hj) as [Hg Hcell].
    replace (r + (- k + j) * dr) with (r0 + j * dr) by lia.
    replace (c + (- k + j) * dc) with (c0 + j * dc) by lia.
    done. }
  destruct (decide ((r0 + 0 * dr, c0 + 0 * dc) = (r, c))) as [E0|N0];
    [left; by apply (Hthrough 0)|].
  destruct (decide ((r0 + 1 * dr, c0 + 1 * dc) = (r, c))) as [E1|N1];
    [left; by apply (Hthrough 1)|].
  destruct (decide ((r0 + 2 * dr, c0 + 2 * dc) = (r, c))) as [E2|N2];
    [left; by apply (Hthrough 2)|].
  destruct (decide ((r0 + 3 * dr, c0 + 3 * dc) = (r, c))) as [E3|N3];
    [left; by apply (Hthrough 3)|].
  destruct (decide ((r0 + 4 * dr, c0 + 4 * dc) = (r, c))) as [E4|N4];
    [left; by apply (Hthrough 4)|].
  right. intros j Hj. destruct (H j Hj) as [Hg Hcell]. split; [done|].
  rewrite cell_setCell_ne in Hcell; [done|].
  assert (j = 0 ∨ j = 1 ∨ j = 2 ∨ j = 3 ∨ j = 4) as [->|[->|[->|[->| ->]]]]
    by lia; congruence.
Qed.

Lemma run_of_five_checkWin (b : Board) (row col player dr dc : Z) :
  isValidPosition row col = true →
  In (dr, dc) directions →
  run_of_five b row col player dr dc →
  checkWin b row col player = true.
Proof.
  intros Hv Hd H. apply checkWin_runs; [done|].
  simpl in Hd.
  destruct Hd as [[= <- <-]|[[= <- <-]|[[= <- <-]|[[= <- <-]|[]]]]]; tauto.
Qed.


Lemma no_five_emptyBoard (player : Z) :
  player ≠ EMPTY → ¬ has_five emptyBoard player.
Proof.
  intros Hp (r0 & c0 & dr & dc & _ & H).
  destruct (H 0 ltac:(lia)) as [_ Hcell].
  rewrite cell_emptyBoard in Hcell. by apply Hp.
Qed.


(** ** The board is the replay of the history *)

Lemma wf_replay (h : list Move) : wf_board (replay h).
Proof.
  induction h as [|m h IH]; simpl; [apply wf_emptyBoard|by apply wf_setCell].
Qed.

Lemma cell_replay_fresh (h : list Move) (r c : Z) :
  (r, c) ∉ move_pos <$> h → cell (replay h) r c = EMPTY.
Proof.
  induction h as [|m h IH]; intros Hnot; simpl; [apply cell_emptyBoard|].
  rewrite fmap_cons, not_elem_of_cons in Hnot. destruct Hnot as [Hne Hnot].
  rewrite cell_setCell_ne; [by apply IH|].
  intros Heq. apply Hne. by rewrite <- Heq.
Qed.

Lemma cell_replay_top (m : Move) (h : list Move) :
  isValidPosition (m_row m) (m_col m) = true →
  cell (replay (m :: h)) (m_row m) (m_col m) = m_player m.
Proof. intros Hv. simpl. apply cell_setCell_eq; [apply wf_replay|done]. Qed.

Lemma replay_pop (m : Move) (h : list Move) :
  move_pos m ∉ move_pos <$> h →
  setCell (replay (m :: h)) (m_row m) (m_col m) EMPTY = replay h.
Proof.
  intros Hfresh. simpl. apply setCell_restore. by apply cell_replay_fresh.
Qed.

Lemma undoLoop_replay (n : nat) (h : list Move) :
  NoDup (move_pos <$> h) →
  fst (undoLoop n (replay h) h) = replay (drop (n `min` length h) h).
Proof.
  revert h. induction n as [|n IH]; intros [|m h] Hnd; try done.
  rewrite fmap_cons in Hnd. apply NoDup_cons in Hnd as [Hm Hnd].
  cbn [undoLoop]. rewrite replay_pop by done. by rewrite IH.
Qed.

(** Five in a row of another stone than the one just written were there
    before. *)
Lemma has_five_other (b : Board) (r c v player : Z) :
  wf_board b → isValidPosition r c = true → player ≠ v →
  has_five (setCell b r c v) player → has_five b player.
Proof.
  intros Hwf Hv Hne (r0 & c0 & dr & dc & Hd & H).
  destruct (five_through_or_before b r c v player r0 c0 dr dc H) as [Hrun|Hold].
  - destruct (run_of_five_has_five _ _ _ _ _ _ Hd Hrun) as [_ Hcell].
    rewrite cell_setCell_eq in Hcell by done. by destruct Hne.
  - by exists r0, c0, dr, dc.
Qed.

Lemma cell_replay_member (h : list Move) (m : Move) :
  NoDup (move_pos <$> h) → m ∈ h →
  isValidPosition (m_row m) (m_col m) = true →
  cell (replay h) (m_row m) (m_col m) = m_player m.
Proof.
  intros Hnd Hm Hv. induction h as [|m' h IH]; [by apply elem_of_nil in Hm|].
  rewrite fmap_cons in Hnd. apply NoDup_cons in Hnd as [Hm' Hnd].
  apply elem_of_cons in Hm as [->|Hm]; [by apply cell_replay_top|].
  simpl. rewrite cell_setCell_ne; [by apply IH|].
  intros Heq. apply Hm'. apply list_elem_of_fmap. exists m. by split.
Qed.

(** A placement that [checkWin] does not report leaves every stone without
    five in a row that had none before. *)
Lemma no_new_five (b : Board) (row col player who : Z) :
  wf_board b → isValidPosition row col = true →
  checkWin (setCell b row col player) row col player = false →
  ¬ has_five b who → ¬ has_five (setCell b row col player) who.
Proof.
  intros Hwf Hv Hwin Hold Hnew.
  destruct (decide (who = player)) as [->|Hne].
  - destruct Hnew as (r0 & c0 & dr & dc & Hd & H).
    destruct (five_through_or_before b row col player player r0 c0 dr dc H)
      as [Hrun|Hbefore].
    + rewrite (run_of_five_checkWin _ _ _ _ dr dc Hv Hd Hrun) in Hwin. done.
    + apply Hold. by exists r0, c0, dr, dc.
  - apply Hold. by apply (has_five_other b row col player).
Qed.

Lemma played_out_start (d : Difficulty) :
  played_out (mkEngine emptyBoard false EMPTY d []).
Proof.
  assert (Hempty : no_five emptyBoard)
    by (split; apply no_five_emptyBoard; discriminate).
  split_and!; cbn [board moveHistory gameOver].
  - done.
  - constructor.
  - intros m Hm. by apply elem_of_nil in Hm.
  - intros k _. by rewrite drop_nil.
  - done.
Qed.

Lemma played_out_step (st : Engine) (o : Op) :
  by_a_player o → played_out st → played_out (step st o).
Proof.
  intros Ho (Hb & Hnd & Hh & Hquiet & Hnow).
  destruct o as [row col player| | | |level]; cbn [step].
  - destruct (rejected_dec row col st) as [Hrej|Hacc].
    { by rewrite (makeMove_rejected _ _ _ _ Hrej). }
    rewrite (makeMove_accepted _ _ _ _ Hacc). cbn [snd].
    destruct (accepted_facts _ _ _ Hacc) as (Hv & He & Hg).
    simpl in Ho.
    assert (Hfresh : (row, col) ∉ move_pos <$> moveHistory st).
    { intros (m & Hpos & Hm)%list_elem_of_fmap.
      destruct (Hh m Hm) as [Hvm Hpm].
      pose proof (cell_replay_member _ m Hnd Hm Hvm) as Hcell.
      rewrite <- Hb in Hcell. injection Hpos as -> ->. rewrite He in Hcell.
      unfold PLAYER, AI, EMPTY in *. lia. }
    split_and!; cbn [board moveHistory gameOver].
    + by rewrite Hb.
    + rewrite fmap_cons. by apply NoDup_cons.
    + intros m [->|Hm]%elem_of_cons; [done|by apply Hh].
    + intros [|k] Hk; [lia|]. cbn [drop].
      destruct k as [|k]; [rewrite drop_0; by apply Hnow|].
      apply Hquiet. lia.
    + intros Hwin. destruct (Hnow Hg) as [HnP HnA].
      cbn [replay foldr m_row m_col m_player]. fold (replay (moveHistory st)).
      rewrite <- Hb in *.
      assert (Hwf : wf_board (board st)) by (rewrite Hb; apply wf_replay).
      split; by apply no_new_five.
  - destruct (decide (moveHistory st = [])) as [He|Hne].
    { by rewrite (undoMove_empty _ He). }
    rewrite (undoMove_nonempty _ Hne). cbn [snd].
    assert (Hk : (1 <= 2 `min` length (moveHistory st))%nat).
    { destruct (moveHistory st); [done|]. simpl. lia. }
    split_and!; cbn [board moveHistory gameOver];
      rewrite ?undoLoop_history.
    + rewrite Hb at 1. by apply undoLoop_replay.
    + rewrite fmap_drop. eapply sublist_NoDup; [done|apply sublist_drop].
    + intros m Hm. apply Hh. by eapply subseteq_drop.
    + intros k Hk'. rewrite drop_drop. apply Hquiet. lia.
    + intros _. by apply Hquiet.
  - apply played_out_start.
  - rewrite getBestMove_frame. by split_and!.
  - by split_and!.
Qed.

Lemma played_out_run (ops : list Op) (st : Engine) :
  Forall by_a_player ops → played_out st → played_out (run ops st).
Proof.
  intros Hops. revert st.
  induction Hops as [|o ops Ho Hops IH]; intros st Hst; [done|].
  simpl. apply IH. by apply played_out_step.
Qed.

(** X7. On an engine driven from a new or freshly reset state by
    [makeMove] with the two player codes, [undoMove], [resetGame],
    [getBestMove] and [setDifficulty], the board is always the replay of the
    history on the empty board: every record's cell holds the record's
    player, the records name distinct cells of the grid, and every cell no
    record names is Empty. *)
Theorem board_is_replay_of_history (ops : list Op) (st0 : Engine) :
  Forall by_a_player ops →
  ∀ st, st = run ops newEngine ∨ st = run ops (resetGame st0) →
    board st = replay (moveHistory st) ∧
    NoDup (move_pos <$> moveHistory st) ∧
    (∀ m, m ∈ moveHistory st →
       isValidPosition (m_row m) (m_col m) = true ∧
       cell (board st) (m_row m) (m_col m) = m_player m) ∧
    (∀ r c, (r, c) ∉ move_pos <$> moveHistory st → cell (board st) r c = EMPTY).
Proof.
  intros Hops st Hst.
  assert (Hplayed : played_out st).
  { destruct Hst as [-> | ->]; apply played_out_run; try done;
      apply played_out_start. }
  destruct Hplayed as (Hb & Hnd & Hh & _ & _).
  split_and!; try done.
  - intros m Hm. destruct (Hh m Hm) as [Hv _]. split; [done|].
    rewrite Hb. by apply cell_replay_member.
  - intros r c Hfresh. rewrite Hb. by apply cell_replay_fresh.
Qed.

Lemma board_is_replay_of_history_witness :
  Forall by_a_player [OpMakeMove 7 7 PLAYER; OpMakeMove 7 8 AI;
                      OpMakeMove 8 8 PLAYER; OpUndoMove] ∧
  board (run [OpMakeMove 7 7 PLAYER; OpMakeMove 7 8 AI;
              OpMakeMove 8 8 PLAYER; OpUndoMove] newEngine)
  = replay [mkMove 7 7 PLAYER].
Proof.
  assert (H : Forall by_a_player [OpMakeMove 7 7 PLAYER; OpMakeMove 7 8 AI;
                                  OpMakeMove 8 8 PLAYER; OpUndoMove]).
  { repeat first [apply Forall_nil_2 | apply Forall_cons_2]; simpl; auto. }
  split; [exact H|].
  exact (proj1 (board_is_replay_of_history _ newEngine H _ (or_introl eq_refl))).
Defined.

(** X8. On such an engine the game-over flag tells whether a five in a row
    is on the board: while the game is undecided neither player has five
    consecutive stones along any row, column or diagonal, and once it is
    decided the winner has. *)
Theorem game_over_iff_five_on_board (ops : list Op) (st0 : Engine) :
  Forall by_a_player ops →
  ∀ st, st = run ops newEngine ∨ st = run ops (resetGame st0) →
    (gameOver st = false →
       ¬ has_five (board st) PLAYER ∧ ¬ has_five (board st) AI) ∧
    (gameOver st = true →
       (winner st = PLAYER ∨ winner st = AI) ∧ has_five (board st) (winner st)).
Proof.
  intros Hops st Hst.
  assert (Hplayed : played_out st).
  { destruct Hst as [-> | ->]; apply played_out_run; try done;
      apply played_out_start. }
  assert (Hstatus : status_ok st).
  { destruct Hst as [-> | ->]; apply status_ok_run; by split. }
  destruct Hplayed as (Hb & Hnd & Hh & _ & Hnow).
  destruct Hstatus as [_ Hdec]. split.
  - intros Hg. rewrite Hb. by apply Hnow.
  - intros Hg. destruct (Hdec Hg) as (m & h & Hhist & Hw & Hwin).
    destruct (Hh m) as [Hv Hp]; [rewrite Hhist; by left|].
    rewrite Hw. split; [done|].
    by apply (checkWin_has_five _ _ _ _ Hv) in Hwin as [H _].
Qed.

Lemma game_over_iff_five_on_board_witness :
  Forall by_a_player [OpMakeMove 7 7 PLAYER; OpMakeMove 7 8 AI] ∧
  ¬ has_five (board (run [OpMakeMove 7 7 PLAYER; OpMakeMove 7 8 AI] newEngine))
      PLAYER.
Proof.
  assert (H : Forall by_a_player [OpMakeMove 7 7 PLAYER; OpMakeMove 7 8 AI]).
  { repeat first [apply Forall_nil_2 | apply Forall_cons_2]; simpl; auto. }
  split; [exact H|].
  destruct (game_over_iff_five_on_board _ newEngine H _ (or_introl eq_refl))
    as [Hund _].
  apply Hund. reflexivity.
Defined.

(** ** The evaluator is symmetric between the players and bounded *)

Lemma cell_swapStones (b : Board) (r c : Z) :
  cell (swapStones b) r c = swapStone (cell b r c).
Proof.
  unfold cell, swapStones. destruct ((0 <=? r) && (0 <=? c)); [|done].
  rewrite list_lookup_fmap.
  destruct (b !! Z.to_nat r) as [line|]; [simpl|done].
  rewrite list_lookup_fmap. by destruct (line !! Z.to_nat c).
Qed.

Lemma swapStone_AI (v : Z) : (swapStone v =? AI) = (v =? PLAYER).
Proof.
  unfold swapStone, AI, PLAYER.
  destruct (v =? 2) eqn:H2, (v =? 1) eqn:H1; lia.
Qed.

Lemma swapStone_PLAYER (v : Z) : (swapStone v =? PLAYER) = (v =? AI).
Proof.
  unfold swapStone, AI, PLAYER.
  destruct (v =? 2) eqn:H2, (v =? 1) eqn:H1; lia.
Qed.

Lemma countSequence_swapStones (b : Board) (at_ : Z → Z * Z) :
  countSequence (swapStones b) at_
  = (snd (countSequence b at_), fst (countSequence b at_)).
Proof.
  rewrite !countSequence_counts. cbn [fst snd]. f_equal; do 2 f_equal;
    apply List.filter_ext; intros p; rewrite cell_swapStones;
    [apply swapStone_AI|apply swapStone_PLAYER].
Qed.

Lemma evaluateSequence_swap (aiCount playerCount : Z) :
  evaluateSequence playerCount aiCount = - evaluateSequence aiCount playerCount.
Proof.
  unfold evaluateSequence.
  destruct (0 <? aiCount), (0 <? playerCount); simpl; try done.
  - destruct (aiCount =? 5), (aiCount =? 4), (aiCount =? 3), (aiCount =? 2),
      (aiCount =? 1); done.
  - destruct (playerCount =? 5), (playerCount =? 4), (playerCount =? 3),
      (playerCount =? 2), (playerCount =? 1); done.
Qed.

Lemma sequenceScore_swapStones (b : Board) (at_ : Z → Z * Z) :
  sequenceScore (swapStones b) at_ = - sequenceScore b at_.
Proof.
  unfold sequenceScore. rewrite countSequence_swapStones.
  destruct (countSequence b at_) as [ai opp]. apply evaluateSequence_swap.
Qed.

Lemma sumZ_opp {A} (f g : A → Z) (l : list A) :
  (∀ x, g x = - f x) → sumZ (g <$> l) = - sumZ (f <$> l).
Proof.
  intros Hfg. induction l as [|x l IH]; [done|].
  rewrite !fmap_cons. cbn [sumZ foldr]. fold (sumZ (g <$> l)).
  fold (sumZ (f <$> l)). rewrite IH, Hfg. lia.
Qed.

(** X9. Exchanging the stones of the two players on any board negates the
    score of [evaluateBoard]: what counts for the automated player in a
    position counts exactly as much against it in the mirrored one. *)
Theorem evaluateBoard_swapStones (b : Board) :
  evaluateBoard (swapStones b) = - evaluateBoard b.
Proof.
  unfold evaluateBoard. rewrite !scoreLoops_sum.
  rewrite !(sumZ_opp (λ p, sequenceScore b _)
              (λ p, sequenceScore (swapStones b) _))
    by (intros; apply sequenceScore_swapStones).
  lia.
Qed.

(** X10. The score of [evaluateBoard] stays within 572 windows times
    100000, far inside the range of [int], and a board filled with stones of
    the automated player reaches this bound. *)
Theorem evaluateBoard_range (b : Board) :
  INT_MIN < - 57200000 <= evaluateBoard b ∧
  evaluateBoard b <= 57200000 < INT_MAX ∧
  evaluateBoard (replicate 15 (replicate 15 AI)) = 57200000 ∧
  evaluateBoard (replicate 15 (replicate 15 PLAYER)) = - 57200000.
Proof.
  pose proof (evaluateBoard_bounds b) as H. unfold INT_MIN, INT_MAX.
  split_and!; try lia; by vm_compute.
Qed.

(** ** Narrow windows *)

(** X11. For every depth, side and engine, and every window
    [INT_MIN <= alpha < beta <= INT_MAX], the value [alphaBetaPruning]
    returns is the exact minimax value when it lies strictly inside the
    window, is at least the minimax value when it is at or below [alpha],
    and at most the minimax value when it is at or above [beta]. *)
Theorem alphaBetaPruning_window (depth : nat) (maximizingPlayer : bool)
    (st : Engine) (alpha beta : Z) :
  INT_MIN <= alpha → alpha < beta → beta <= INT_MAX →
  let v := fst (alphaBetaPruning depth alpha beta maximizingPlayer st) in
  let m := minimax depth maximizingPlayer (gameOver st) (board st) in
  (v <= alpha → m <= v) ∧ (beta <= v → v <= m) ∧ (alpha < v < beta → v = m).
Proof.
  intros Hmin Hwin Hmax.
  exact (alphaBetaPruning_fail_soft depth maximizingPlayer st alpha beta
           Hmin Hwin Hmax).
Qed.

Lemma alphaBetaPruning_window_witness :
  INT_MIN <= -5 ∧ -5 < 5 ∧ 5 <= INT_MAX ∧
  (-5 < fst (alphaBetaPruning 1 (-5) 5 true newEngine) < 5 →
   fst (alphaBetaPruning 1 (-5) 5 true newEngine)
   = minimax 1 true (gameOver newEngine) (board newEngine)).
Proof.
  assert (H1 : INT_MIN <= -5) by (unfold INT_MIN; lia).
  assert (H2 : -5 < 5) by lia.
  assert (H3 : 5 <= INT_MAX) by (unfold INT_MAX; lia).
  split; [exact H1|]. split; [exact H2|]. split; [exact H3|].
  exact (proj2 (proj2 (alphaBetaPruning_window 1 true newEngine (-5) 5 H1 H2 H3))).
Defined.

(** ** What [getBestMove] can return *)

Lemma getBestMove_minimax (st : Engine) :
  fst (getBestMove st) = bestMove_minimax st.
Proof.
  unfold getBestMove, bestMove_minimax.
  destruct (generateMoves (board st)) as [|p moves] eqn:Hg.
  - by destruct (cell _ _ _ =? EMPTY).
  - apply bestLoop_minimax. rewrite <- Hg. apply generateMoves_EMPTY.
Qed.

Section BestFold.
Variable score : Z * Z → Z.

Let keep_best (best : Z * (Z * Z)) (p : Z * Z) : Z * (Z * Z) :=
  if best.1 <? score p then (score p, p) else best.

Lemma best_fold_In (moves : list (Z * Z)) (best : Z * (Z * Z)) :
  snd (fold_left keep_best moves best) = snd best
  ∨ In (snd (fold_left keep_best moves best)) moves.
Proof.
  revert best. induction moves as [|p moves IH]; intros best; [by left|].
  cbn [fold_left]. destruct (IH (keep_best best p)) as [H|H].
  - rewrite H. unfold keep_best.
    destruct (best.1 <? score p); [right; by left|by left].
  - right. by right.
Qed.

Lemma best_fold_found (moves : list (Z * Z)) (fallback : Z * Z) :
  moves ≠ [] →
  (∀ p, In p moves → INT_MIN < score p) →
  In (snd (fold_left keep_best moves (INT_MIN, fallback))) moves.
Proof.
  intros Hne Hs. destruct moves as [|p moves]; [done|].
  cbn [fold_left]. unfold keep_best at 2. cbn [fst].
  rewrite (proj2 (Z.ltb_lt _ _)) by (apply Hs; by left).
  destruct (best_fold_In moves (score p, p)) as [H|H].
  - rewrite H. by left.
  - by right.
Qed.

Lemma best_fold_none (moves : list (Z * Z)) (fallback : Z * Z) :
  (∀ p, In p moves → score p = INT_MIN) →
  fold_left keep_best moves (INT_MIN, fallback) = (INT_MIN, fallback).
Proof.
  induction moves as [|p moves IH]; intros Hs; [done|].
  cbn [fold_left]. unfold keep_best at 2. cbn [fst].
  rewrite (Hs p) by (by left). rewrite Z.ltb_irrefl.
  apply IH. intros q Hq. apply Hs. by right.
Qed.
End BestFold.

Lemma generateMoves_nil (b : Board) :
  generateMoves b = [] →
  ∀ r c, isValidPosition r c = true → cell b r c ≠ EMPTY.
Proof.
  unfold generateMoves.
  destruct (scanCells (λ row col, (cell b row col =? EMPTY) && hasNeighbors b row col))
    as [|p l]; [|done].
  intros Hnil r c Hv He.
  assert (Hin : In (r, c) (scanCells (λ row col, cell b row col =? EMPTY))).
  { apply In_scanCells. split; [done|]. by apply Z.eqb_eq. }
  by rewrite Hnil in Hin.
Qed.

Lemma generateMoves_valid (b : Board) (r c : Z) :
  In (r, c) (generateMoves b) → isValidPosition r c = true.
Proof.
  unfold generateMoves.
  destruct (scanCells (λ row col, (cell b row col =? EMPTY) && hasNeighbors b row col))
    as [|p l] eqn:Hs.
  - by intros [H _]%In_scanCells.
  - rewrite <- Hs. by intros [H _]%In_scanCells.
Qed.

(** X12. [getBestMove] returns either [(-1, -1)] or one of the candidates of
    [generateMoves], hence an Empty cell of the grid.  When there is no
    candidate the grid has no Empty cell, so the centre is occupied as well
    and the answer is [(-1, -1)]: the centre shortcut of [getBestMove] is
    never taken, on any board. *)
Theorem getBestMove_returns_candidate (st : Engine) :
  (fst (getBestMove st) = (-1, -1)
   ∨ In (fst (getBestMove st)) (generateMoves (board st)) ∧
     isValidPosition (fst (getBestMove st)).1 (fst (getBestMove st)).2 = true ∧
     cell (board st) (fst (getBestMove st)).1 (fst (getBestMove st)).2 = EMPTY) ∧
  (generateMoves (board st) = [] →
   cell (board st) (BOARD_SIZE / 2) (BOARD_SIZE / 2) ≠ EMPTY ∧
   fst (getBestMove st) = (-1, -1)).
Proof.
  rewrite getBestMove_minimax. unfold bestMove_minimax.
  destruct (generateMoves (board st)) as [|p moves] eqn:Hg.
  - assert (Hc : cell (board st) (BOARD_SIZE / 2) (BOARD_SIZE / 2) ≠ EMPTY)
      by (by apply (generateMoves_nil _ Hg)).
    apply Z.eqb_neq in Hc as Hc'. rewrite Hc'. split; [by left|].
    intros _. split; [exact Hc|done].
  - split; [|done].
    pose proof (best_fold_In
      (λ q, minimax (difficulty_depth (difficulty st)) false (gameOver st)
              (setCell (board st) q.1 q.2 AI))
      (p :: moves) (INT_MIN, (-1, -1))) as H.
    cbv beta in H. cbn [snd] in H.
    set (res := snd (fold_left _ (p :: moves) _)) in *. clearbody res.
    rewrite <- Hg in H |- *. destruct H as [H|H]; [by left|right].
    destruct res as [r c]. cbn [fst snd].
    split_and!; [done|by eapply generateMoves_valid|by apply generateMoves_EMPTY].
Qed.
Lemma fold_min_lower (f : Z * Z → Z) (lo : Z) (moves : list (Z * Z)) (acc : Z) :
  (∀ p, lo < f p) → lo < acc →
  lo < fold_left (λ minEval p, Z.min minEval (f p)) moves acc.
Proof.
  intros Hf. revert acc.
  induction moves as [|p moves IH]; intros acc Hacc; simpl; [done|].
  apply IH. specialize (Hf p). lia.
Qed.

Lemma minimax_over (depth : nat) (maximizingPlayer : bool) (b : Board) :
  minimax depth maximizingPlayer true b = evaluateBoard b.
Proof. by destruct depth. Qed.

Lemma minimax_one_ply (over : bool) (b : Board) :
  INT_MIN < minimax 1 false over b.
Proof.
  assert (Hev : ∀ b', INT_MIN < evaluateBoard b').
  { intros b'. pose proof (evaluateBoard_bounds b'). unfold INT_MIN. lia. }
  cbn [minimax]. destruct over; [apply Hev|].
  apply (fold_min_lower (λ p, evaluateBoard (setCell b p.1 p.2 PLAYER)));
    [intros; apply Hev|unfold INT_MIN, INT_MAX; lia].
Qed.

(** X13. At difficulty [EASY], and at any difficulty once the game is
    decided, [getBestMove] returns one of the candidates of [generateMoves]
    whenever there is one, so it answers [(-1, -1)] only on a grid without
    Empty cells. *)
Theorem getBestMove_finds_a_move (st : Engine) :
  difficulty st = EASY ∨ gameOver st = true →
  generateMoves (board st) ≠ [] →
  In (fst (getBestMove st)) (generateMoves (board st)) ∧
  fst (getBestMove st) ≠ (-1, -1).
Proof.
  intros Hcase Hne.
  assert (Hin : In (fst (getBestMove st)) (generateMoves (board st))).
  { rewrite getBestMove_minimax. unfold bestMove_minimax.
    destruct (generateMoves (board st)) as [|p moves] eqn:Hg; [done|].
    apply (best_fold_found
      (λ q, minimax (difficulty_depth (difficulty st)) false (gameOver st)
              (setCell (board st) q.1 q.2 AI))); [done|].
    intros q _. destruct Hcase as [-> | ->].
    - apply minimax_one_ply.
    - rewrite minimax_over. pose proof (evaluateBoard_bounds
        (setCell (board st) q.1 q.2 AI)). unfold INT_MIN. lia. }
  split; [exact Hin|].
  intros Heq. rewrite Heq in Hin. by apply generateMoves_valid in Hin.
Qed.

Lemma getBestMove_finds_a_move_witness :
  (difficulty (setDifficulty EASY newEngine) = EASY
   ∨ gameOver (setDifficulty EASY newEngine) = true) ∧
  generateMoves (board (setDifficulty EASY newEngine)) ≠ [] ∧
  fst (getBestMove (setDifficulty EASY newEngine)) ≠ (-1, -1).
Proof.
  assert (H1 : difficulty (setDifficulty EASY newEngine) = EASY
               ∨ gameOver (setDifficulty EASY newEngine) = true)
    by (left; reflexivity).
  assert (H2 : generateMoves (board (setDifficulty EASY newEngine)) ≠ [])
    by (vm_compute; discriminate).
  split; [exact H1|]. split; [exact H2|].
  exact (proj2 (getBestMove_finds_a_move _ H1 H2)).
Defined.

(** ** Two Empty cells left *)

Lemma filter_filter_andb {A} (f g : A → bool) (l : list A) :
  List.filter (λ x, f x && g x) l = List.filter g (List.filter f l).
Proof.
  induction l as [|x l IH]; [done|]. simpl.
  destruct (f x); simpl; [destruct (g x); by rewrite IH|done].
Qed.

Lemma generateMoves_emptyCells (b : Board) :
  generateMoves b =
  match List.filter (λ p, hasNeighbors b p.1 p.2) (emptyCells b) with
  | [] => emptyCells b
  | near => near
  end.
Proof.
  unfold generateMoves, emptyCells. rewrite !scanCells_filter.
  rewrite (filter_filter_andb (λ p, cell b p.1 p.2 =? EMPTY)
             (λ p, hasNeighbors b p.1 p.2)).
  by destruct (List.filter _ (List.filter _ allCells)).
Qed.

Lemma emptyCells_setCell (b : Board) (r c v : Z) :
  wf_board b → isValidPosition r c = true → v ≠ EMPTY →
  emptyCells (setCell b r c v)
  = List.filter (λ p, negb (bool_decide (p = (r, c)))) (emptyCells b).
Proof.
  intros Hwf Hv Hne. unfold emptyCells. rewrite !scanCells_filter.
  rewrite <- filter_filter_andb. apply List.filter_ext. intros [r' c'].
  cbn [fst snd]. case_bool_decide as Heq.
  - injection Heq as -> ->. rewrite cell_setCell_eq by done.
    rewrite andb_false_r. by apply Z.eqb_neq.
  - rewrite cell_setCell_ne by congruence. by rewrite andb_true_r.
Qed.

Lemma generateMoves_one_left (b : Board) (p : Z * Z) :
  emptyCells b = [p] → generateMoves b = [p].
Proof.
  intros He. rewrite generateMoves_emptyCells, He. simpl.
  by destruct (hasNeighbors b p.1 p.2).
Qed.

Lemma generateMoves_none_left (b : Board) :
  emptyCells b = [] → generateMoves b = [].
Proof. intros He. by rewrite generateMoves_emptyCells, He. Qed.

(** With two Empty cells left and two plies or more to search, a stone on
    either of them scores [INT_MIN]: the opponent takes the other cell, and
    the maximizing node that follows has no candidate and returns its
    initial [maxEval]. *)
Lemma minimax_two_left (depth : nat) (b : Board) (p q : Z * Z) :
  wf_board b →
  isValidPosition p.1 p.2 = true → isValidPosition q.1 q.2 = true → p ≠ q →
  emptyCells b = [p; q] ∨ emptyCells b = [q; p] →
  minimax (S (S depth)) false false (setCell b p.1 p.2 AI) = INT_MIN.
Proof.
  intros Hwf Hp Hq Hpq He.
  assert (Hone : emptyCells (setCell b p.1 p.2 AI) = [q]).
  { rewrite emptyCells_setCell by done.
    destruct p as [pr pc], q as [qr qc]. cbn [fst snd].
    destruct He as [-> | ->]; simpl;
      rewrite (bool_decide_eq_true_2 ((pr, pc) = (pr, pc))) by done;
      rewrite (bool_decide_eq_false_2 ((qr, qc) = (pr, pc))) by congruence;
      done. }
  assert (Hnone : emptyCells (setCell (setCell b p.1 p.2 AI) q.1 q.2 PLAYER) = []).
  { rewrite emptyCells_setCell; [|by apply wf_setCell|done|done].
    rewrite Hone. destruct q as [qr qc]. simpl.
    by rewrite bool_decide_eq_true_2. }
  cbn [minimax]. rewrite (generateMoves_one_left _ _ Hone). cbn [fold_left].
  rewrite (generateMoves_none_left _ Hnone). done.
Qed.

(** X14. When the game is undecided, the difficulty is [MEDIUM] or [HARD]
    and exactly two cells of the grid are Empty, [getBestMove] returns
    [(-1, -1)] although [generateMoves] has candidates: every candidate
    scores [INT_MIN], which is not greater than the initial best score. *)
Theorem getBestMove_two_cells_left (st : Engine) (p q : Z * Z) :
  wf_board (board st) →
  gameOver st = false →
  difficulty st ≠ EASY →
  emptyCells (board st) = [p; q] →
  generateMoves (board st) ≠ [] ∧ fst (getBestMove st) = (-1, -1).
Proof.
  intros Hwf Hg Hd He.
  assert (Hin : ∀ x, In x (emptyCells (board st)) → isValidPosition x.1 x.2 = true).
  { intros [r c]. unfold emptyCells. by intros [H _]%In_scanCells. }
  assert (Hp : isValidPosition p.1 p.2 = true) by (apply Hin; rewrite He; by left).
  assert (Hq : isValidPosition q.1 q.2 = true)
    by (apply Hin; rewrite He; right; by left).
  assert (Hpq : p ≠ q).
  { pose proof (StronglySorted_scanCells (λ row col, cell (board st) row col =? EMPTY))
      as Hs. fold (emptyCells (board st)) in Hs. rewrite He in Hs.
    apply StronglySorted_cons in Hs as [Hlt _].
    apply Forall_cons in Hlt as [Hlt _]. intros ->.
    unfold rowMajor_lt in Hlt. lia. }
  assert (Hcand : ∀ x, In x (generateMoves (board st)) → x = p ∨ x = q).
  { intros [r c] Hx.
    assert (Hx' : In (r, c) (emptyCells (board st))).
    { apply In_scanCells. split; [by eapply generateMoves_valid|].
      apply Z.eqb_eq. by apply generateMoves_EMPTY. }
    rewrite He in Hx'. destruct Hx' as [<-|[<-|[]]]; auto. }
  assert (Hne : generateMoves (board st) ≠ []).
  { rewrite generateMoves_emptyCells, He.
    destruct (List.filter _ [p; q]) eqn:Hf; done. }
  split; [exact Hne|].
  rewrite getBestMove_minimax. unfold bestMove_minimax.
  destruct (generateMoves (board st)) as [|x moves] eqn:Hgen; [done|].
  rewrite (best_fold_none
    (λ x, minimax (difficulty_depth (difficulty st)) false (gameOver st)
            (setCell (board st) x.1 x.2 AI))); [done|].
  intros y Hy. rewrite Hg.
  assert (Hdepth : ∃ d, difficulty_depth (difficulty st) = S (S d)).
  { destruct (difficulty st); [done|by exists 1%nat|by exists 3%nat]. }
  destruct Hdepth as [d ->].
  destruct (Hcand y Hy) as [-> | ->].
  - apply (minimax_two_left d _ p q); auto.
  - apply (minimax_two_left d _ q p); auto.
Qed.

Lemma getBestMove_two_cells_left_witness :
  wf_board nearlyFull ∧
  emptyCells nearlyFull = [(0, 0); (14, 14)] ∧
  fst (getBestMove (mkEngine nearlyFull false EMPTY MEDIUM [])) = (-1, -1).
Proof.
  assert (Hwf : wf_board nearlyFull).
  { split; [reflexivity|]. apply Forall_forall. intros line Hline.
    apply list_elem_of_fmap in Hline as (r & -> & _).
    by rewrite length_fmap, length_seqZ. }
  assert (He : emptyCells nearlyFull = [(0, 0); (14, 14)]) by (by vm_compute).
  split; [exact Hwf|]. split; [exact He|].
  refine (proj2 (getBestMove_two_cells_left
                   (mkEngine nearlyFull false EMPTY MEDIUM []) _ _ Hwf _ _ He));
    [reflexivity|discriminate].
Defined.

(** ** When the move generator falls back *)

Lemma flip_between (g : Z → bool) (a b : Z) :
  a <= b → g a = true → g b = false →
  ∃ i, a <= i < b ∧ g i = true ∧ g (i + 1) = false.
Proof.
  intros Hab. remember (Z.to_nat (b - a)) as n eqn:Hn.
  revert a Hab Hn. induction n as [|n IH]; intros a Hab Hn Ha Hb.
  - assert (a = b) as -> by lia. congruence.
  - destruct (g (a + 1)) eqn:Hnext.
    + destruct (IH (a + 1)) as (i & Hi & Hgi & Hgi'); [lia|lia|done|done|].
      exists i. split; [lia|done].
    + exists a. split; [lia|done].
Qed.

Lemma flip_between_rev (g : Z → bool) (a b : Z) :
  a <= b → g a = false → g b = true →
  ∃ i, a <= i < b ∧ g i = false ∧ g (i + 1) = true.
Proof.
  intros Hab Ha Hb.
  destruct (flip_between (λ x, negb (g x)) a b) as (i & Hi & Hgi & Hgi');
    [done|by rewrite Ha|by rewrite Hb|].
  exists i. split; [done|].
  split; [by apply negb_true_iff|by apply negb_false_iff].
Qed.

(** On a grid with a stone and an Empty cell, some Empty cell is next to a
    stone: walk from the stone along its row and then along the column of
    the Empty cell. *)
Lemma stone_has_empty_neighbour (b : Board) (r1 c1 r2 c2 : Z) :
  isValidPosition r1 c1 = true → cell b r1 c1 ≠ EMPTY →
  isValidPosition r2 c2 = true → cell b r2 c2 = EMPTY →
  ∃ r c, near_stone b r c.
Proof.
  intros [Hr1 Hc1]%isValidPosition_spec Hstone
         [Hr2 Hc2]%isValidPosition_spec Hempty.
  assert (Hnear : ∀ r c r' c',
    0 <= r < BOARD_SIZE → 0 <= c < BOARD_SIZE →
    0 <= r' < BOARD_SIZE → 0 <= c' < BOARD_SIZE →
    negb (cell b r c =? EMPTY) = false →
    negb (cell b r' c' =? EMPTY) = true →
    r - 1 <= r' <= r + 1 → c - 1 <= c' <= c + 1 → (r', c') ≠ (r, c) →
    ∃ r c, near_stone b r c).
  { intros r c r' c' Hr Hc Hr' Hc' He%negb_false_iff%Z.eqb_eq
           Ho%negb_true_iff%Z.eqb_neq Hdr Hdc Hne.
    exists r, c. split; [done|]. by exists r', c'. }
  destruct (cell b r1 c2 =? EMPTY) eqn:Hcorner.
  - (* the corner is Empty: the flip is on row [r1] *)
    destruct (Z.le_ge_cases c1 c2) as [Hle|Hge].
    + destruct (flip_between (λ c, negb (cell b r1 c =? EMPTY)) c1 c2)
        as (i & Hi & Hocc & Hemp);
        [done|by apply negb_true_iff, Z.eqb_neq|by rewrite Hcorner|].
      apply (Hnear r1 (i + 1) r1 i); try done; try lia. intros [= ?]. lia.
    + destruct (flip_between_rev (λ c, negb (cell b r1 c =? EMPTY)) c2 c1)
        as (i & Hi & Hemp & Hocc);
        [done|by rewrite Hcorner|by apply negb_true_iff, Z.eqb_neq|].
      apply (Hnear r1 i r1 (i + 1)); try done; try lia. intros [= ?]. lia.
  - (* the corner is occupied: the flip is on column [c2] *)
    destruct (Z.le_ge_cases r1 r2) as [Hle|Hge].
    + destruct (flip_between (λ r, negb (cell b r c2 =? EMPTY)) r1 r2)
        as (i & Hi & Hocc & Hemp);
        [done|by rewrite Hcorner|
         by apply negb_false_iff, Z.eqb_eq|].
      apply (Hnear (i + 1) c2 i c2); try done; try lia. intros [= ?]. lia.
    + destruct (flip_between_rev (λ r, negb (cell b r c2 =? EMPTY)) r2 r1)
        as (i & Hi & Hemp & Hocc);
        [done|by apply negb_false_iff, Z.eqb_eq|by rewrite Hcorner|].
      apply (Hnear i c2 (i + 1) c2); try done; try lia. intros [= ?]. lia.
Qed.

Lemma filter_all {A} (f : A → bool) (l : list A) :
  (∀ x, In x l → f x = true) → List.filter f l = l.
Proof.
  induction l as [|x l IH]; intros H; [done|]. simpl.
  rewrite (H x) by (by left). f_equal. apply IH. intros y Hy. apply H. by right.
Qed.

Lemma filter_none {A} (f : A → bool) (l : list A) :
  (∀ x, In x l → f x = false) → List.filter f l = [].
Proof.
  induction l as [|x l IH]; intros H; [done|]. simpl.
  rewrite (H x) by (by left). apply IH. intros y Hy. apply H. by right.
Qed.

(** X15. [generateMoves] returns no candidate exactly when the grid has no
    Empty cell.  As soon as the grid holds one stone, every candidate is an
    Empty cell next to a stone, so the fallback to all Empty cells is used
    only on a grid without any stone, where the result is the whole grid in
    scan order. *)
Theorem generateMoves_fallback (b : Board) :
  (generateMoves b = [] ↔
   ∀ r c, isValidPosition r c = true → cell b r c ≠ EMPTY) ∧
  ((∃ r c, isValidPosition r c = true ∧ cell b r c ≠ EMPTY) →
   ∀ r c, In (r, c) (generateMoves b) ↔ near_stone b r c) ∧
  ((∀ r c, isValidPosition r c = true → cell b r c = EMPTY) →
   generateMoves b = allCells).
Proof.
  split_and!.
  - split; [apply generateMoves_nil|].
    intros Hfull. destruct (generateMoves b) as [|[r c] l] eqn:Hg; [done|].
    exfalso. apply (Hfull r c).
    + apply (generateMoves_valid b). rewrite Hg. by left.
    + apply generateMoves_EMPTY. rewrite Hg. by left.
  - intros (r1 & c1 & Hv1 & Hstone) r c. unfold generateMoves.
    destruct (scanCells (λ row col, (cell b row col =? EMPTY) && hasNeighbors b row col))
      as [|p l] eqn:Hs.
    + split.
      * intros [Hv He%Z.eqb_eq]%In_scanCells. exfalso.
        destruct (stone_has_empty_neighbour b r1 c1 r c) as (r' & c' & Hnear);
          try done.
        apply In_scanCells_near in Hnear. by rewrite Hs in Hnear.
      * intros Hnear%In_scanCells_near. by rewrite Hs in Hnear.
    + rewrite <- Hs. apply In_scanCells_near.
  - intros Hclear. unfold generateMoves.
    rewrite !scanCells_filter.
    rewrite (filter_none (λ p, (cell b p.1 p.2 =? EMPTY) && hasNeighbors b p.1 p.2)).
    + apply filter_all. intros [r c] Hin%In_allCells. cbn [fst snd].
      apply Z.eqb_eq. by apply Hclear.
    + intros [r c] Hin%In_allCells. cbn [fst snd].
      apply andb_false_iff. right. apply not_true_iff_false.
      intros (r' & c' & _ & _ & _ & Hv' & Hocc)%hasNeighbors_spec.
      apply Hocc, Hclear. by apply isValidPosition_spec.
Qed.

(** ** Placing through the C interface *)

(** X16. When [make_move] answers 1, [get_board_value] reads [player] back
    at the placed cell and reads what it read before everywhere else; when
    it answers 0 the engine is the one passed in.  The player code is not
    checked, so after an accepted [make_move] with player -1 the cell reads
    -1, the value [get_board_value] also gives for coordinates off the
    grid. *)
Theorem make_move_then_get_board_value (row col player : Z) (st : Engine) :
  wf_board (board st) →
  let ok := fst (make_move row col player st) in
  let st' := snd (make_move row col player st) in
  (ok = 0 ∨ ok = 1) ∧
  (ok = 0 → st' = st) ∧
  (ok = 1 →
     get_board_value st' row col = player ∧
     (∀ r c, (r, c) ≠ (row, col) →
        get_board_value st' r c = get_board_value st r c) ∧
     (player = -1 → get_board_value st' row col = get_board_value st' (-1) (-1))).
Proof.
  intros Hwf ok st'. subst ok st'. rewrite make_move_unfold. cbn [fst snd].
  destruct (rejected_dec row col st) as [Hrej|Hacc].
  - rewrite (makeMove_rejected _ _ _ _ Hrej). cbn [fst snd].
    split; [by left|]. split; [done|]. intros H. discriminate H.
  - rewrite (makeMove_accepted _ _ _ _ Hacc). cbn [fst snd].
    destruct (accepted_facts _ _ _ Hacc) as (Hv & _ & _).
    split; [by right|]. split; [intros H; discriminate H|]. intros _.
    assert (Hread : get_board_value
      {| board := setCell (board st) row col player;
         gameOver := checkWin (setCell (board st) row col player) row col player;
         winner := if checkWin (setCell (board st) row col player) row col player
                   then player else winner st;
         difficulty := difficulty st;
         moveHistory := mkMove row col player :: moveHistory st |} row col
      = player).
    { unfold get_board_value, getBoard. cbn [board].
      unfold isValidPosition in Hv. rewrite Hv. by apply cell_setCell_eq. }
    split; [exact Hread|]. split.
    + intros r c Hne. unfold get_board_value, getBoard. cbn [board].
      destruct (_ && _); [|done]. apply cell_setCell_ne. congruence.
    + intros ->. rewrite Hread. reflexivity.
Qed.

Lemma make_move_then_get_board_value_witness :
  wf_board (board newEngine) ∧
  get_board_value (snd (make_move 7 7 (-1) newEngine)) 7 7
  = get_board_value (snd (make_move 7 7 (-1) newEngine)) (-1) (-1).
Proof.
  split; [apply wf_emptyBoard|].
  destruct (make_move_then_get_board_value 7 7 (-1) newEngine wf_emptyBoard)
    as (_ & _ & H).
  destruct (H eq_refl) as (_ & _ & Hsentinel).
  by apply Hsentinel.
Defined.
